(** * compare_elo: summing elo ratings over grouped movie lists

    A shallow embedding of [src/lib/elo_rating/compare_elo.py] and the
    properties of its two functions, [calculateTotalElo] and [checkAll].

    The module keeps one list object, [newList], alive for the whole process;
    [checkAll] appends to it and hands the very same object back to every
    caller.  Lists are therefore modelled as objects in a store, addressed by
    reference, and both functions run in a small state-and-exception monad. *)

From Stdlib Require Import ZArith String.
From stdpp Require Import base option list gmap strings.

(** ** Objects and the store *)

(** References to objects. *)
Abbreviation loc := positive.

(** The two fields of [class MovieObject(TypedDict)]. *)
Record fields := Fields { title : string; elo : Z }.

(** A record object.  The functions read records with attribute access
    ([y.title], [y.elo]) and build records with [MovieObject(title=.., elo=..)].
    A [TypedDict] call builds a plain [dict], whose entries are keys and not
    attributes, so the two kinds of record are kept apart:
    - [Attrs f]: an object whose attributes [title] and [elo] hold [f];
    - [MovieObject f]: the dict [{'title': title f, 'elo': elo f}]. *)
Inductive object :=
  | Attrs (f : fields)
  | MovieObject (f : fields).

(** The store: record objects, list objects holding records (groups, typed
    [List[MovieObject]]) and list objects holding groups (collections, typed
    [List[List[MovieObject]]]).  A list holds references, as in Python. *)
Record heap := Heap {
  objects : gmap positive object;
  groups : gmap positive (list positive);
  collections : gmap positive (list positive)
}.

(** [newList = []] (line 2): the module-level name is bound once, to a list
    object created when the module is loaded. *)
Definition newList : loc := 1%positive.

(** The store right after the module has been loaded. *)
Definition module_loaded : heap :=
  {| objects := ∅; groups := {[ newList := [] ]}; collections := ∅ |}.

(** ** Computations *)

Inductive exn := IndexError | AttributeError.

Inductive outcome (A : Type) :=
  | Return (a : A)
  | Raise (e : exn).
Arguments Return {A} a.
Arguments Raise {A} e.

(** A computation runs on a store and ends, with a value or with an exception,
    in a store.  [None] is reserved for a reference to no object, which no
    Python program can hold. *)
Definition M (A : Type) : Type := heap → option (outcome A * heap).

Definition ret {A} (a : A) : M A := λ h, Some (Return a, h).

Definition raise {A} (e : exn) : M A := λ h, Some (Raise e, h).

Definition bind {A B} (m : M A) (f : A → M B) : M B :=
  λ h, match m h with
       | Some (Return a, h') => f a h'
       | Some (Raise e, h') => Some (Raise e, h')
       | None => None
       end.

Notation "x ⇐ m ; k" := (bind m (λ x, k))
  (at level 100, m at next level, right associativity,
   format "'[' x  ⇐  m ;  '/' k ']'").

Definition read {A} (f : heap → option A) : M A :=
  λ h, match f h with
       | Some a => Some (Return a, h)
       | None => None
       end.

(** The items of a list object, as iteration sees them. *)
Definition iter_collection (c : loc) : M (list loc) :=
  read (λ h, collections h !! c).

Definition iter_group (g : loc) : M (list loc) :=
  read (λ h, groups h !! g).

(** [l[i]] for [i >= 0]: [IndexError] when out of range. *)
Definition getitem_collection (c : loc) (i : nat) : M loc :=
  xs ⇐ iter_collection c;
  match xs !! i with
  | Some x => ret x
  | None => raise IndexError
  end.

Definition getitem_group (g : loc) (i : nat) : M loc :=
  ys ⇐ iter_group g;
  match ys !! i with
  | Some y => ret y
  | None => raise IndexError
  end.

(** [len(g)] *)
Definition len_group (g : loc) : M nat :=
  ys ⇐ iter_group g; ret (length ys).

(** [y.title] and [y.elo]: a dict has no such attributes. *)
Definition getattr_title (y : loc) : M string :=
  o ⇐ read (λ h, objects h !! y);
  match o with
  | Attrs f => ret (title f)
  | MovieObject _ => raise AttributeError
  end.

Definition getattr_elo (y : loc) : M Z :=
  o ⇐ read (λ h, objects h !! y);
  match o with
  | Attrs f => ret (elo f)
  | MovieObject _ => raise AttributeError
  end.

(** [MovieObject(title=t, elo=e)]: a new dict, at a reference not in use. *)
Definition new_MovieObject (t : string) (e : Z) : M loc :=
  λ h, let l := fresh (dom (objects h)) in
       Some (Return l,
             {| objects := <[l := MovieObject (Fields t e)]> (objects h);
                groups := groups h;
                collections := collections h |}).

(** [g.append(y)] *)
Definition append (g : loc) (y : loc) : M unit :=
  λ h, match groups h !! g with
       | Some ys =>
           Some (Return tt,
                 {| objects := objects h;
                    groups := <[g := ys ++ [y]]> (groups h);
                    collections := collections h |})
       | None => None
       end.

(** [for x in xs: s = body(x, s)], over the items [xs] the loop was entered
    with. *)
Fixpoint for_each {A S} (xs : list A) (body : A → S → M S) (s : S) : M S :=
  match xs with
  | [] => ret s
  | x :: xs' => s' ⇐ body x s; for_each xs' body s'
  end.

(** ** The two functions *)

(** Lines 8-16.  Neither loop body writes to the store, so each [for] visits
    the items its list has when the loop is entered. *)
Definition calculateTotalElo (movieList : loc) (movieName : string) : M Z :=
  xs ⇐ iter_collection movieList;
  for_each xs (λ x totalElo,
    ys ⇐ iter_group x;
    for_each ys (λ y totalElo,
      t ⇐ getattr_title y;
      if String.eqb t movieName
      then e ⇐ getattr_elo y; ret (totalElo + e)%Z
      else ret totalElo) totalElo) 0%Z.

(** Lines 18-23.  [range(len(movieList[0]))] is evaluated once; every
    [movieList[0][i]] is looked up again in the store of that moment. *)
Definition checkAll (movieList : loc) : M loc :=
  g ⇐ getitem_collection movieList 0;
  n ⇐ len_group g;
  _ ⇐ for_each (seq 0 n) (λ i (_ : unit),
         g1 ⇐ getitem_collection movieList 0;
         y1 ⇐ getitem_group g1 i;
         t1 ⇐ getattr_title y1;
         newElo ⇐ calculateTotalElo movieList t1;
         g2 ⇐ getitem_collection movieList 0;
         y2 ⇐ getitem_group g2 i;
         t2 ⇐ getattr_title y2;
         movieObj ⇐ new_MovieObject t2 newElo;
         append newList movieObj) tt;
  ret newList.

(** ** What a reference denotes in a store *)

(** The records a group holds, in order. *)
Definition view_group (h : heap) (g : loc) : option (list object) :=
  ys ← groups h !! g; mapM (λ y, objects h !! y) ys.

(** The groups a collection holds, each with its records. *)
Definition view_collection (h : heap) (c : loc) : option (list (list object)) :=
  xs ← collections h !! c; mapM (view_group h) xs.

(** A collection of records readable by attribute access. *)
Definition attrs (R : list (list fields)) : list (list object) :=
  map (map Attrs) R.

(** ** The sum the specification speaks of *)

(** The records named [n], from every group. *)
Definition matching (R : list (list fields)) (n : string) : list fields :=
  filter (λ r, title r = n) (concat R).

(** The arithmetic sum of the [elo] fields of the records named [n]. *)
Definition sum_of_matching (R : list (list fields)) (n : string) : Z :=
  foldr Z.add 0%Z (map elo (matching R n)).

(** What scanning records in order with an accumulator gives: the first dict
    met ends the scan with [AttributeError]. *)
Fixpoint scan (rs : list object) (n : string) (acc : Z) : outcome Z :=
  match rs with
  | [] => Return acc
  | Attrs f :: rs' =>
      scan rs' n (if String.eqb (title f) n then (acc + elo f)%Z else acc)
  | MovieObject _ :: _ => Raise AttributeError
  end.

(** ** The loop bodies, named *)

(** The body of the inner loop (lines 13-14). *)
Definition visit_record (movieName : string) (y : loc) (totalElo : Z) : M Z :=
  t ⇐ getattr_title y;
  if String.eqb t movieName
  then e ⇐ getattr_elo y; ret (totalElo + e)%Z
  else ret totalElo.

(** The body of the outer loop (lines 12-14). *)
Definition visit_group (movieName : string) (x : loc) (totalElo : Z) : M Z :=
  ys ⇐ iter_group x; for_each ys (visit_record movieName) totalElo.

(** The body of the loop (lines 20-22) at index [i]. *)
Definition append_total (movieList : loc) (i : nat) (_ : unit) : M unit :=
  g1 ⇐ getitem_collection movieList 0;
  y1 ⇐ getitem_group g1 i;
  t1 ⇐ getattr_title y1;
  newElo ⇐ calculateTotalElo movieList t1;
  g2 ⇐ getitem_collection movieList 0;
  y2 ⇐ getitem_group g2 i;
  t2 ⇐ getattr_title y2;
  movieObj ⇐ new_MovieObject t2 newElo;
  append newList movieObj.

(** ** What the specification asks [checkAll] for *)

(** The dict that one pass builds for the record [f] of the first group. *)
Definition total_of (R : list (list fields)) (f : fields) : object :=
  MovieObject (Fields (title f) (sum_of_matching R (title f))).

(** The store after one pass: a new dict at [l], appended to [newList]. *)
Definition after_pass (h : heap) (ls : list loc) (o : object) : heap :=
  let l := fresh (dom (objects h)) in
  {| objects := <[l := o]> (objects h);
     groups := <[newList := ls ++ [l]]> (groups h);
     collections := collections h |}.

(** The records the specification asks for: one per record of the first
    group, in its order, each with the grand total of its name. *)
Definition aggregate (R : list (list fields)) : list object :=
  match R with
  | [] => []
  | G :: _ => map (total_of R) G
  end.

(** ** Statements of a caller *)

(** A caller builds its input in the same store.  These are the statements
    the examples below are written with; they are not part of the module. *)

(** A new object with attributes [title = t] and [elo = e]. *)
Definition new_Attrs (t : string) (e : Z) : M loc :=
  λ h, let l := fresh (dom (objects h)) in
       Some (Return l,
             {| objects := <[l := Attrs (Fields t e)]> (objects h);
                groups := groups h;
                collections := collections h |}).

(** The list display [[y1, ..., yn]] of records: a new list object. *)
Definition new_group (ys : list loc) : M loc :=
  λ h, let l := fresh (dom (groups h)) in
       Some (Return l,
             {| objects := objects h;
                groups := <[l := ys]> (groups h);
                collections := collections h |}).

(** The list display [[x1, ..., xn]] of groups: a new list object. *)
Definition new_collection (xs : list loc) : M loc :=
  λ h, let l := fresh (dom (collections h)) in
       Some (Return l,
             {| objects := objects h;
                groups := groups h;
                collections := <[l := xs]> (collections h) |}).

(** Looking at a list now: the records it holds, as values. *)
Definition records_of (g : loc) : M (list object) :=
  read (λ h, view_group h g).

Definition groups_of (c : loc) : M (list (list object)) :=
  read (λ h, view_collection h c).

(** The outcome of a script run right after the module has been loaded. *)
Definition run {A} (m : M A) : option (outcome A) :=
  fst <$> m module_loaded.

(** Whether one of the groups of collection [c] is the list [newList]. *)
Definition holds_newList (h : heap) (c : loc) : bool :=
  match collections h !! c with
  | Some xs => bool_decide (newList ∈ xs)
  | None => false
  end.

(** A computation that never changes the store. *)
Definition pure {A} (m : M A) : Prop :=
  ∀ h o h', m h = Some (o, h') → h' = h.

(** The only changes from [h] to [h']: new objects, and references appended
    to [newList]. *)
Definition extends (h h' : heap) : Prop :=
  collections h' = collections h
  ∧ (∀ g, g ≠ newList → groups h' !! g = groups h !! g)
  ∧ objects h ⊆ objects h'
  ∧ (∀ ls, groups h !! newList = Some ls →
       ∃ ls', groups h' !! newList = Some (ls ++ ls')).

(** A computation that changes the store in no other way. *)
Definition grows {A} (m : M A) : Prop :=
  ∀ h o h', m h = Some (o, h') → extends h h'.

(** ** Scripts *)

(** The literal [[[r11, r12, ...], [r21, ...], ...]]: every record and every
    list of it is a new object. *)
Fixpoint new_records (fs : list fields) : M (list loc) :=
  match fs with
  | [] => ret []
  | f :: fs' =>
      y ⇐ new_Attrs (title f) (elo f); ys ⇐ new_records fs'; ret (y :: ys)
  end.

Fixpoint new_groups (R : list (list fields)) : M (list loc) :=
  match R with
  | [] => ret []
  | G :: R' =>
      ys ⇐ new_records G; x ⇐ new_group ys; xs ⇐ new_groups R'; ret (x :: xs)
  end.

Definition literal (R : list (list fields)) : M loc :=
  xs ⇐ new_groups R; new_collection xs.

Definition A1 : fields := Fields "A"%string 1.
Definition A2 : fields := Fields "A"%string 2.
Definition A3 : fields := Fields "A"%string 3.
Definition A10 : fields := Fields "A"%string 10.
Definition A13 : fields := Fields "A"%string 13.
Definition B5 : fields := Fields "B"%string 5.
Definition B9 : fields := Fields "B"%string 9.
Definition X1 : fields := Fields "X"%string 1.

(** [calculateTotalElo(R, n)] on the literal [R]. *)
Definition total_for (R : list (list fields)) (n : string) : M Z :=
  c ⇐ literal R; calculateTotalElo c n.

(** [r = checkAll(R)] on the literal [R], and what the returned list holds
    when the call returns. *)
Definition first_call (R : list (list fields)) : M (list object) :=
  c ⇐ literal R; r ⇐ checkAll c; records_of r.

(** [r1 = checkAll(R1)] and then [r2 = checkAll(R2)]: what each returned list
    holds when its call returns. *)
Definition two_calls (R1 R2 : list (list fields)) : M (list object * list object) :=
  c1 ⇐ literal R1;
  c2 ⇐ literal R2;
  r1 ⇐ checkAll c1; o1 ⇐ records_of r1;
  r2 ⇐ checkAll c2; o2 ⇐ records_of r2;
  ret (o1, o2).

(** [checkAll([[A10, B5], [A3]])] *)
Definition scenario_1 : M (list object) := first_call [[A10; B5]; [A3]].

(** [checkAll([[A2], [B9]])] *)
Definition scenario_3 : M (list object) := first_call [[A2]; [B9]].

(** [checkAll([])] *)
Definition scenario_5 : M (list object) := first_call [].

(** [checkAll([[X1]])] first, [checkAll([[A10, B5], [A3]])] after it. *)
Definition scenario_1_second : M (list object * list object) :=
  two_calls [[X1]] [[A10; B5]; [A3]].

(** [checkAll([[A10, B5], [A3]])] first, [checkAll([[A2], [B9]])] after it. *)
Definition scenario_3_second : M (list object * list object) :=
  two_calls [[A10; B5]; [A3]] [[A2]; [B9]].

(** [c = [[A1]]; r1 = checkAll(c); o1 = list(r1); r2 = checkAll(c);
     o2 = list(r2)]: the two outputs as they were returned, the first output
    looked at again, and whether [r1 is r2]. *)
Definition same_input_twice : M (list object * list object * list object * bool) :=
  c ⇐ literal [[A1]];
  r1 ⇐ checkAll c; o1 ⇐ records_of r1;
  r2 ⇐ checkAll c; o2 ⇐ records_of r2;
  o1' ⇐ records_of r1;
  ret (o1, o2, o1', bool_decide (r1 = r2)).

(** [checkAll([[A1]])], then [checkAll([[]])]: the two references returned
    and what the second one holds. *)
Definition then_empty_group : M (loc * loc * list object) :=
  c1 ⇐ literal [[A1]];
  c2 ⇐ literal [[]];
  r1 ⇐ checkAll c1;
  r2 ⇐ checkAll c2; o2 ⇐ records_of r2;
  ret (r1, r2, o2).

(** [r = checkAll([[]]); c = [[A1], r]; checkAll(c)]: the collection before
    and after the second call. *)
Definition result_as_group : M (list (list object) * list (list object)) :=
  c0 ⇐ literal [[]];
  r ⇐ checkAll c0;
  ys ⇐ new_records [A1]; g ⇐ new_group ys;
  c ⇐ new_collection [g; r];
  before ⇐ groups_of c;
  _ ⇐ checkAll c;
  after ⇐ groups_of c;
  ret (before, after).

(** [calculateTotalElo([], "A")] and then [checkAll([])]. *)
Definition empty_collection : M Z :=
  c ⇐ literal [];
  z ⇐ calculateTotalElo c "A"%string;
  _ ⇐ checkAll c;
  ret z.

(** [calculateTotalElo([[MovieObject(title="A", elo=1)]], "A")] *)
Definition dict_records : M Z :=
  d ⇐ new_MovieObject "A"%string 1; g ⇐ new_group [d]; c ⇐ new_collection [g];
  calculateTotalElo c "A"%string.

(** A store a caller has filled: collection 1 is [[[A10, B5], [A3]]],
    collection 2 is [[[A2], [B9]]], collection 3 is [[]], collection 4 is
    [[[]]], collection 5 is [[[A10, B5, A3]]], collection 6 is [[[A3]]] and
    collection 7 is [[[A10, B5]]]. *)
Definition store_1 : heap :=
  {| objects := {[ 1%positive := Attrs A10; 2%positive := Attrs B5;
                   3%positive := Attrs A3; 4%positive := Attrs A2;
                   5%positive := Attrs B9 ]};
     groups := {[ newList := []; 2%positive := [1%positive; 2%positive];
                  3%positive := [3%positive]; 4%positive := [4%positive];
                  5%positive := [5%positive]; 6%positive := [];
                  7%positive := [1%positive; 2%positive; 3%positive] ]};
     collections := {[ 1%positive := [2%positive; 3%positive];
                       2%positive := [4%positive; 5%positive];
                       3%positive := [];
                       4%positive := [6%positive];
                       5%positive := [7%positive];
                       6%positive := [3%positive];
                       7%positive := [2%positive] ]} |}.

(** ** More statements and stores for the further properties *)

(** A computation that raises no exception outside [P]. *)
Definition raises_only {A} (P : exn → Prop) (m : M A) : Prop :=
  ∀ h e h', m h = Some (Raise e, h') → P e.

(** [calculateTotalElo([[MovieObject(title="A", elo=1)]], "B")]: the record
    is of the declared type, and its title is not the name asked for. *)
Definition dict_record_other_name : M Z :=
  d ⇐ new_MovieObject "A"%string 1; g ⇐ new_group [d]; c ⇐ new_collection [g];
  calculateTotalElo c "B"%string.

(** [for c in cs: checkAll(c)] *)
Definition call_each (cs : list loc) : M unit :=
  for_each cs (λ c (_ : unit), _ ⇐ checkAll c; ret tt) tt.

(** A store in which records built by [MovieObject] are around: object 3 is
    the dict [{'title': 'A', 'elo': 13}], group 3 holds it.  Collection 1 is
    [[[A1, B5], newList]], collection 2 is [[[A1, B5], [dict]]], collection 3
    is [[[dict]]] and collection 4 is [[[A1, B5]]]; [newList] is empty. *)
Definition store_2 : heap :=
  {| objects := {[ 1%positive := Attrs A1; 2%positive := Attrs B5;
                   3%positive := MovieObject A13 ]};
     groups := {[ newList := []; 2%positive := [1%positive; 2%positive];
                  3%positive := [3%positive] ]};
     collections := {[ 1%positive := [2%positive; newList];
                       2%positive := [2%positive; 3%positive];
                       3%positive := [3%positive];
                       4%positive := [2%positive] ]} |}.

(** The same store after an earlier call has left the dict in [newList]. *)
Definition store_3 : heap :=
  {| objects := objects store_2;
     groups := <[newList := [3%positive]]> (groups store_2);
     collections := collections store_2 |}.

(** The store after [newList.append(MovieObject(title=.., elo=..))] with the
    fields [f]; and after several of them, in order. *)
Definition add_dict (h : heap) (f : fields) : heap :=
  match groups h !! newList with
  | Some ls => after_pass h ls (MovieObject f)
  | None => h
  end.

Definition add_dicts (h : heap) (fs : list fields) : heap :=
  foldl add_dict h fs.

(** [store_1] with one more collection, 8, which is [[[A3], [A10, B5]]]: the
    groups of collection 1 in the other order. *)
Definition store_4 : heap :=
  {| objects := objects store_1;
     groups := groups store_1;
     collections := <[8%positive := [3%positive; 2%positive]]> (collections store_1) |}.

(** ** Running the primitives *)

Section Running.
Context (h : heap).

Lemma bind_Return {A B} (m : M A) (f : A → M B) a h' :
  m h = Some (Return a, h') → bind m f h = f a h'.
Proof. unfold bind. intros ->. reflexivity. Qed.

Lemma bind_Raise {A B} (m : M A) (f : A → M B) e h' :
  m h = Some (Raise e, h') → bind m f h = Some (Raise e, h').
Proof. unfold bind. intros ->. reflexivity. Qed.

Lemma iter_collection_run c xs :
  collections h !! c = Some xs → iter_collection c h = Some (Return xs, h).
Proof. unfold iter_collection, read. intros ->. reflexivity. Qed.

Lemma iter_group_run g ys :
  groups h !! g = Some ys → iter_group g h = Some (Return ys, h).
Proof. unfold iter_group, read. intros ->. reflexivity. Qed.

Lemma getattr_title_Attrs y f :
  objects h !! y = Some (Attrs f) → getattr_title y h = Some (Return (title f), h).
Proof. unfold getattr_title, bind, read. intros ->. reflexivity. Qed.

Lemma getattr_elo_Attrs y f :
  objects h !! y = Some (Attrs f) → getattr_elo y h = Some (Return (elo f), h).
Proof. unfold getattr_elo, bind, read. intros ->. reflexivity. Qed.

Lemma getattr_title_MovieObject y f :
  objects h !! y = Some (MovieObject f) →
  getattr_title y h = Some (Raise AttributeError, h).
Proof. unfold getattr_title, bind, read. intros ->. reflexivity. Qed.
End Running.

(** ** [calculateTotalElo] scans the records of all groups in order *)

Lemma calculateTotalElo_unfold movieList movieName :
  calculateTotalElo movieList movieName =
  (xs ⇐ iter_collection movieList; for_each xs (visit_group movieName) 0%Z).
Proof. reflexivity. Qed.

(** Once an exception is raised the remaining records do not matter. *)
Lemma scan_app rs1 rs2 n acc :
  scan (rs1 ++ rs2) n acc =
  match scan rs1 n acc with
  | Return acc' => scan rs2 n acc'
  | Raise e => Raise e
  end.
Proof.
  revert acc. induction rs1 as [|[f|f] rs1 IH]; intros acc; simpl; auto.
Qed.

Lemma visit_records_run h n ys rs acc :
  mapM (λ y, objects h !! y) ys = Some rs →
  for_each ys (visit_record n) acc h = Some (scan rs n acc, h).
Proof.
  revert rs acc. induction ys as [|y ys IH]; intros rs acc Hv.
  - simpl in Hv. injection Hv as <-. reflexivity.
  - simpl in Hv. destruct (objects h !! y) as [o|] eqn:Ho; [|discriminate].
    simpl in Hv.
    destruct (mapM (λ y, objects h !! y) ys) as [rs'|] eqn:Hrs; [|discriminate].
    simpl in Hv. injection Hv as <-.
    cbn [for_each]. unfold bind at 1.
    unfold visit_record, getattr_title, getattr_elo, bind, read, ret, raise.
    rewrite Ho. destruct o as [f|f]; simpl.
    + destruct (String.eqb (title f) n); rewrite ?Ho; simpl; apply IH; reflexivity.
    + reflexivity.
Qed.

Lemma visit_groups_run h n xs C acc :
  mapM (view_group h) xs = Some C →
  for_each xs (visit_group n) acc h = Some (scan (concat C) n acc, h).
Proof.
  revert C acc. induction xs as [|x xs IH]; intros C acc Hv.
  - simpl in Hv. injection Hv as <-. reflexivity.
  - simpl in Hv. destruct (view_group h x) as [rs|] eqn:Hx; [|discriminate].
    simpl in Hv.
    destruct (mapM (view_group h) xs) as [C'|] eqn:HC; [|discriminate].
    simpl in Hv. injection Hv as <-.
    unfold view_group in Hx.
    destruct (groups h !! x) as [ys|] eqn:Hg; [|discriminate]. simpl in Hx.
    cbn [for_each concat]. rewrite scan_app.
    unfold bind at 1. unfold visit_group, bind at 1.
    rewrite (iter_group_run h x ys Hg).
    rewrite (visit_records_run h n ys rs acc Hx).
    destruct (scan rs n acc) as [acc'|e]; [|reflexivity].
    apply IH. reflexivity.
Qed.

(** [calculateTotalElo] leaves the store as it found it, and its outcome is
    the scan of all records, group after group. *)
Lemma calculateTotalElo_run h c C n :
  view_collection h c = Some C →
  calculateTotalElo c n h = Some (scan (concat C) n 0%Z, h).
Proof.
  intros Hv. unfold view_collection in Hv.
  destruct (collections h !! c) as [xs|] eqn:Hc; [|discriminate]. simpl in Hv.
  rewrite calculateTotalElo_unfold.
  rewrite (bind_Return h _ _ xs h (iter_collection_run h c xs Hc)).
  apply visit_groups_run. exact Hv.
Qed.

Lemma scan_Attrs rs n acc :
  scan (map Attrs rs) n acc =
  Return (acc + foldr Z.add 0 (map elo (filter (λ r, title r = n) rs)))%Z.
Proof.
  revert acc. induction rs as [|f rs IH]; intros acc; simpl.
  - f_equal. lia.
  - rewrite IH. rewrite filter_cons.
    destruct (String.eqb_spec (title f) n) as [Heq|Hne].
    + rewrite decide_True by exact Heq. simpl. f_equal. lia.
    + rewrite decide_False by exact Hne. reflexivity.
Qed.

Lemma concat_attrs R : concat (attrs R) = map Attrs (concat R).
Proof. unfold attrs. symmetry. apply concat_map. Qed.

Lemma scan_attrs R n :
  scan (concat (attrs R)) n 0%Z = Return (sum_of_matching R n).
Proof. rewrite concat_attrs, scan_Attrs. reflexivity. Qed.

Lemma calculateTotalElo_attrs h c R n :
  view_collection h c = Some (attrs R) →
  calculateTotalElo c n h = Some (Return (sum_of_matching R n), h).
Proof.
  intros Hv. rewrite (calculateTotalElo_run h c _ n Hv), scan_attrs. reflexivity.
Qed.

(** ** One pass of the loop of [checkAll] *)

Lemma checkAll_unfold movieList :
  checkAll movieList =
  (g ⇐ getitem_collection movieList 0;
   n ⇐ len_group g;
   _ ⇐ for_each (seq 0 n) (append_total movieList) tt;
   ret newList).
Proof. reflexivity. Qed.

Lemma view_collection_lookup h c C :
  view_collection h c = Some C → ∃ xs, collections h !! c = Some xs.
Proof.
  unfold view_collection. destruct (collections h !! c); [eauto|discriminate].
Qed.

Lemma view_first_group h c G Rs :
  view_collection h c = Some (attrs (G :: Rs)) →
  ∃ g xs ys, collections h !! c = Some (g :: xs)
    ∧ groups h !! g = Some ys
    ∧ Forall2 (λ y o, objects h !! y = Some o) ys (map Attrs G).
Proof.
  unfold view_collection. intros Hv.
  destruct (collections h !! c) as [xs|] eqn:Hc; [|discriminate]. simpl in Hv.
  apply mapM_Some in Hv. unfold attrs in Hv. simpl in Hv.
  inversion Hv as [|g rs xs' C' Hg Hrest]; subst.
  unfold view_group in Hg.
  destruct (groups h !! g) as [ys|] eqn:Hys; [|discriminate]. simpl in Hg.
  apply mapM_Some in Hg. eauto 6.
Qed.

Lemma append_total_run h c G Rs i f ls :
  view_collection h c = Some (attrs (G :: Rs)) →
  G !! i = Some f →
  groups h !! newList = Some ls →
  append_total c i tt h
  = Some (Return tt, after_pass h ls (total_of (G :: Rs) f)).
Proof.
  intros Hv Hi Hnew.
  destruct (view_first_group h c G Rs Hv) as (g & xs & ys & Hc & Hg & Hys).
  assert (Hi' : map Attrs G !! i = Some (Attrs f)).
  { rewrite list_lookup_fmap, Hi. reflexivity. }
  destruct (Forall2_lookup_r _ _ _ _ _ Hys Hi') as (y & Hy & Ho).
  unfold append_total.
  unfold getitem_collection, iter_collection, getitem_group, iter_group,
    getattr_title, read, ret.
  unfold bind at 1 2 3 4 5 6. rewrite Hc. simpl. rewrite Hg, Hy, Ho.
  unfold bind at 1. rewrite (calculateTotalElo_run h c _ (title f) Hv).
  rewrite scan_attrs.
  unfold bind. rewrite Hc. simpl. rewrite Hg, Hy, Ho.
  unfold new_MovieObject, append. simpl. rewrite Hnew. reflexivity.
Qed.

(** ** What a call leaves alone *)

Lemma view_group_frame h h' g rs :
  groups h' !! g = groups h !! g →
  objects h ⊆ objects h' →
  view_group h g = Some rs → view_group h' g = Some rs.
Proof.
  unfold view_group. intros -> Hsub Hv.
  destruct (groups h !! g) as [ys|]; [|discriminate]. simpl in *.
  apply mapM_Some. apply mapM_Some in Hv.
  eapply Forall2_impl; [exact Hv|].
  intros y o Ho. simpl in Ho. eapply lookup_weaken; eassumption.
Qed.

Lemma view_groups_frame h h' xs C :
  (∀ g, g ∈ xs → groups h' !! g = groups h !! g) →
  objects h ⊆ objects h' →
  mapM (view_group h) xs = Some C → mapM (view_group h') xs = Some C.
Proof.
  intros Hsame Hsub Hv. apply mapM_Some. apply mapM_Some in Hv.
  induction Hv as [|g rs xs' C' Hg _ IH]; constructor.
  - apply (view_group_frame h); auto. apply Hsame. left.
  - apply IH. intros g' Hg'. apply Hsame. right. exact Hg'.
Qed.

Lemma view_collection_frame h h' c xs C :
  collections h' = collections h →
  collections h !! c = Some xs →
  (∀ g, g ∈ xs → groups h' !! g = groups h !! g) →
  objects h ⊆ objects h' →
  view_collection h c = Some C → view_collection h' c = Some C.
Proof.
  unfold view_collection. intros -> Hc Hsame Hsub.
  rewrite Hc. simpl. apply view_groups_frame; assumption.
Qed.

Lemma fresh_object h : objects h !! fresh (dom (objects h)) = None.
Proof. apply not_elem_of_dom. apply is_fresh. Qed.

Lemma after_pass_objects h ls o : objects h ⊆ objects (after_pass h ls o).
Proof. simpl. apply insert_subseteq. apply fresh_object. Qed.

Lemma after_pass_groups h ls o g :
  g ≠ newList → groups (after_pass h ls o) !! g = groups h !! g.
Proof. intros Hne. simpl. apply lookup_insert_ne. congruence. Qed.

Lemma after_pass_view h ls o c xs C :
  collections h !! c = Some xs →
  newList ∉ xs →
  view_collection h c = Some C →
  view_collection (after_pass h ls o) c = Some C.
Proof.
  intros Hc Hnot. apply view_collection_frame with xs; auto.
  - intros g Hg. apply after_pass_groups. intros ->. contradiction.
  - apply after_pass_objects.
Qed.

(** ** The whole loop, when no group of the collection is [newList] *)

Lemma passes_run c G Rs xs (idx : list nat) (fs : list fields) :
  Forall2 (λ i f, G !! i = Some f) idx fs →
  ∀ h ls,
  view_collection h c = Some (attrs (G :: Rs)) →
  collections h !! c = Some xs →
  newList ∉ xs →
  groups h !! newList = Some ls →
  ∃ h' ls',
    for_each idx (append_total c) tt h = Some (Return tt, h')
    ∧ groups h' = <[newList := ls ++ ls']> (groups h)
    ∧ collections h' = collections h
    ∧ objects h ⊆ objects h'
    ∧ Forall2 (λ l o, objects h' !! l = Some o) ls' (map (total_of (G :: Rs)) fs).
Proof.
  intros HF. induction HF as [|i f idx fs Hi _ IH]; intros h ls Hv Hc Hnot Hnew.
  - exists h, []. simpl. rewrite app_nil_r.
    split; [reflexivity|]. split; [symmetry; apply insert_id; exact Hnew|].
    split; [reflexivity|]. split; [reflexivity|constructor].
  - set (o := total_of (G :: Rs) f).
    set (h1 := after_pass h ls o).
    destruct (IH h1 (ls ++ [fresh (dom (objects h))])) as (h' & ls' & Hrun & Hg & Hcs & Hsub & Hout).
    + apply after_pass_view with xs; assumption.
    + exact Hc.
    + exact Hnot.
    + simpl. apply lookup_insert_eq.
    + exists h', (fresh (dom (objects h)) :: ls').
      cbn [for_each]. unfold bind at 1.
      rewrite (append_total_run h c G Rs i f ls Hv Hi Hnew).
      fold o. fold h1. split; [exact Hrun|]. split; [|split; [|split]].
      * rewrite Hg. simpl. rewrite insert_insert_eq.
        rewrite <- app_assoc. reflexivity.
      * rewrite Hcs. reflexivity.
      * etransitivity; [apply (after_pass_objects h ls o)|exact Hsub].
      * simpl. constructor; [|exact Hout].
        eapply lookup_weaken; [|exact Hsub]. simpl. apply lookup_insert_eq.
Qed.

Lemma seq_lookup_all {A} (G : list A) :
  Forall2 (λ i f, G !! i = Some f) (seq 0 (length G)) G.
Proof.
  induction G as [|f G IH] using rev_ind; [constructor|].
  rewrite length_app. cbn [length]. rewrite Nat.add_1_r, seq_S.
  cbn [plus]. apply Forall2_app.
  - eapply Forall2_impl; [exact IH|]. intros i f' Hi.
    simpl in Hi. apply lookup_app_l_Some. exact Hi.
  - constructor; [|constructor]. rewrite lookup_app_r by lia.
    rewrite Nat.sub_diag. reflexivity.
Qed.

(** ** A call of [checkAll] on a collection that does not hold [newList] *)

Lemma checkAll_run h c xs G Rs old :
  view_collection h c = Some (attrs (G :: Rs)) →
  collections h !! c = Some xs →
  newList ∉ xs →
  view_group h newList = Some old →
  ∃ h', checkAll c h = Some (Return newList, h')
    ∧ view_group h' newList = Some (old ++ aggregate (G :: Rs))
    ∧ view_collection h' c = Some (attrs (G :: Rs))
    ∧ collections h' = collections h
    ∧ (∀ g, g ≠ newList → groups h' !! g = groups h !! g)
    ∧ objects h ⊆ objects h'.
Proof.
  intros Hv Hc Hnot Hold.
  destruct (view_first_group h c G Rs Hv) as (g & xs' & ys & Hc' & Hg & Hys).
  assert (Hlen : length ys = length G).
  { apply Forall2_length in Hys. rewrite length_map in Hys. exact Hys. }
  unfold view_group in Hold.
  destruct (groups h !! newList) as [ls|] eqn:Hnew; [|discriminate].
  simpl in Hold. apply mapM_Some in Hold.
  destruct (passes_run c G Rs xs _ _ (seq_lookup_all G) h ls Hv Hc Hnot Hnew)
    as (h' & ls' & Hrun & Hgs & Hcs & Hsub & Hout).
  exists h'. split; [|split; [|split; [|split; [|split]]]].
  - rewrite checkAll_unfold.
    unfold getitem_collection, iter_collection, len_group, iter_group, read, ret.
    unfold bind at 1 2 3 4. rewrite Hc'. simpl. rewrite Hg, Hlen.
    unfold bind. rewrite Hrun. reflexivity.
  - unfold view_group. rewrite Hgs, lookup_insert_eq. simpl.
    apply mapM_Some. apply Forall2_app; [|exact Hout].
    eapply Forall2_impl; [exact Hold|].
    intros l o Ho. simpl in Ho. eapply lookup_weaken; eassumption.
  - apply view_collection_frame with h xs; auto.
    intros g' Hg'. rewrite Hgs. apply lookup_insert_ne. intros <-. contradiction.
  - exact Hcs.
  - intros g' Hne. rewrite Hgs. apply lookup_insert_ne. congruence.
  - exact Hsub.
Qed.

Lemma holds_newList_false h c xs :
  collections h !! c = Some xs → holds_newList h c = false → newList ∉ xs.
Proof.
  unfold holds_newList. intros ->. apply bool_decide_eq_false.
Qed.

(** ** Computations that only read *)

Lemma pure_ret {A} (a : A) : pure (ret a).
Proof. intros h o h' H. injection H as _ <-. reflexivity. Qed.

Lemma pure_raise {A} e : pure (raise (A := A) e).
Proof. intros h o h' H. injection H as _ <-. reflexivity. Qed.

Lemma pure_read {A} (f : heap → option A) : pure (read f).
Proof.
  intros h o h' H. unfold read in H. destruct (f h); [|discriminate].
  injection H as _ <-. reflexivity.
Qed.

Lemma pure_bind {A B} (m : M A) (f : A → M B) :
  pure m → (∀ a, pure (f a)) → pure (bind m f).
Proof.
  intros Hm Hf h o h' H. unfold bind in H.
  destruct (m h) as [[[a|e] h1]|] eqn:Hmh; [| |discriminate].
  - apply Hm in Hmh. subst h1. eapply Hf. exact H.
  - apply Hm in Hmh. subst h1. injection H as _ <-. reflexivity.
Qed.

Lemma pure_for_each {A S} (xs : list A) (body : A → S → M S) :
  (∀ x s, pure (body x s)) → ∀ s, pure (for_each xs body s).
Proof.
  intros Hbody. induction xs as [|x xs IH]; intros s; simpl.
  - apply pure_ret.
  - apply pure_bind; [apply Hbody|exact IH].
Qed.

Lemma pure_getattr_title y : pure (getattr_title y).
Proof.
  apply pure_bind; [apply pure_read|].
  intros [f|f]; [apply pure_ret|apply pure_raise].
Qed.

Lemma pure_getattr_elo y : pure (getattr_elo y).
Proof.
  apply pure_bind; [apply pure_read|].
  intros [f|f]; [apply pure_ret|apply pure_raise].
Qed.

(** Whatever it is given, and however it ends, [calculateTotalElo] leaves
    every object of the store as it was. *)
Lemma calculateTotalElo_pure movieList movieName :
  pure (calculateTotalElo movieList movieName).
Proof.
  apply pure_bind; [apply pure_read|]. intros xs.
  apply pure_for_each. intros x totalElo.
  apply pure_bind; [apply pure_read|]. intros ys.
  apply pure_for_each. intros y totalElo'.
  apply pure_bind; [apply pure_getattr_title|]. intros t.
  destruct (String.eqb t movieName); [|apply pure_ret].
  apply pure_bind; [apply pure_getattr_elo|]. intros e. apply pure_ret.
Qed.

(** Every call of [checkAll] that returns, returns the reference [newList]. *)
Lemma checkAll_returns_newList movieList h r h' :
  checkAll movieList h = Some (Return r, h') → r = newList.
Proof.
  rewrite checkAll_unfold. unfold bind at 1.
  destruct (getitem_collection movieList 0 h) as [[[g|e] h1]|]; [| |]; try discriminate.
  unfold bind at 1.
  destruct (len_group g h1) as [[[n|e] h2]|]; try discriminate.
  unfold bind at 1.
  destruct (for_each (seq 0 n) (append_total movieList) tt h2) as [[[u|e] h3]|];
    try discriminate.
  unfold ret. intros H. injection H as <- _. reflexivity.
Qed.

(** ** What [checkAll] may write *)

Lemma extends_refl h : extends h h.
Proof.
  split; [reflexivity|]. split; [reflexivity|]. split; [reflexivity|].
  intros ls Hls. exists []. rewrite app_nil_r. exact Hls.
Qed.

Lemma extends_trans h1 h2 h3 : extends h1 h2 → extends h2 h3 → extends h1 h3.
Proof.
  intros (Hc1 & Hg1 & Ho1 & Hn1) (Hc2 & Hg2 & Ho2 & Hn2).
  split; [congruence|]. split; [|split].
  - intros g Hne. rewrite Hg2, Hg1 by exact Hne. reflexivity.
  - etransitivity; eassumption.
  - intros ls Hls. destruct (Hn1 ls Hls) as [ls1 Hls1].
    destruct (Hn2 _ Hls1) as [ls2 Hls2].
    exists (ls1 ++ ls2). rewrite Hls2, app_assoc. reflexivity.
Qed.

Lemma pure_grows {A} (m : M A) : pure m → grows m.
Proof. intros Hp h o h' H. rewrite (Hp h o h' H). apply extends_refl. Qed.

Lemma grows_bind {A B} (m : M A) (f : A → M B) :
  grows m → (∀ a, grows (f a)) → grows (bind m f).
Proof.
  intros Hm Hf h o h' H. unfold bind in H.
  destruct (m h) as [[[a|e] h1]|] eqn:Hmh; [| |discriminate].
  - apply extends_trans with h1; [exact (Hm _ _ _ Hmh)|exact (Hf _ _ _ _ H)].
  - injection H as <- <-. exact (Hm _ _ _ Hmh).
Qed.

Lemma grows_for_each {A S} (xs : list A) (body : A → S → M S) :
  (∀ x s, grows (body x s)) → ∀ s, grows (for_each xs body s).
Proof.
  intros Hbody. induction xs as [|x xs IH]; intros s; simpl.
  - apply pure_grows, pure_ret.
  - apply grows_bind; [apply Hbody|exact IH].
Qed.

Lemma grows_new_MovieObject t e : grows (new_MovieObject t e).
Proof.
  intros h o h' H. unfold new_MovieObject in H. injection H as _ <-.
  split; [reflexivity|]. split; [reflexivity|]. split.
  - simpl. apply insert_subseteq. apply fresh_object.
  - simpl. intros ls Hls. exists []. rewrite app_nil_r. exact Hls.
Qed.

Lemma grows_append_newList y : grows (append newList y).
Proof.
  intros h o h' H. unfold append in H.
  destruct (groups h !! newList) as [ys|] eqn:Hys; [|discriminate].
  injection H as _ <-.
  split; [reflexivity|]. split; [|split].
  - intros g Hne. simpl. apply lookup_insert_ne. congruence.
  - reflexivity.
  - simpl. intros ls Hls. rewrite Hys in Hls. injection Hls as <-.
    exists [y]. apply lookup_insert_eq.
Qed.

Lemma pure_getitem_collection c i : pure (getitem_collection c i).
Proof.
  apply pure_bind; [apply pure_read|].
  intros xs. destruct (xs !! i); [apply pure_ret|apply pure_raise].
Qed.

Lemma pure_getitem_group g i : pure (getitem_group g i).
Proof.
  apply pure_bind; [apply pure_read|].
  intros ys. destruct (ys !! i); [apply pure_ret|apply pure_raise].
Qed.

Lemma pure_len_group g : pure (len_group g).
Proof. apply pure_bind; [apply pure_read|]. intros ys. apply pure_ret. Qed.

Lemma grows_append_total c i u : grows (append_total c i u).
Proof.
  unfold append_total.
  apply grows_bind; [apply pure_grows, pure_getitem_collection|]. intros g1.
  apply grows_bind; [apply pure_grows, pure_getitem_group|]. intros y1.
  apply grows_bind; [apply pure_grows, pure_getattr_title|]. intros t1.
  apply grows_bind; [apply pure_grows, calculateTotalElo_pure|]. intros newElo.
  apply grows_bind; [apply pure_grows, pure_getitem_collection|]. intros g2.
  apply grows_bind; [apply pure_grows, pure_getitem_group|]. intros y2.
  apply grows_bind; [apply pure_grows, pure_getattr_title|]. intros t2.
  apply grows_bind; [apply grows_new_MovieObject|]. intros movieObj.
  apply grows_append_newList.
Qed.

(** However a call of [checkAll] ends, all it has done to the store is to
    create objects and to append to [newList]. *)
Lemma checkAll_grows movieList : grows (checkAll movieList).
Proof.
  rewrite checkAll_unfold.
  apply grows_bind; [apply pure_grows, pure_getitem_collection|]. intros g.
  apply grows_bind; [apply pure_grows, pure_len_group|]. intros n.
  apply grows_bind; [apply grows_for_each; intros i u; apply grows_append_total|].
  intros u. apply pure_grows, pure_ret.
Qed.

(** A collection none of whose groups is [newList] is left as it was by any
    call of [checkAll], returning or raising, on any argument. *)
Lemma checkAll_frame movieList h o h' c C :
  checkAll movieList h = Some (o, h') →
  view_collection h c = Some C →
  holds_newList h c = false →
  view_collection h' c = Some C.
Proof.
  intros Hrun Hv Hnot.
  destruct (checkAll_grows movieList h o h' Hrun) as (Hcs & Hgs & Hsub & _).
  destruct (view_collection_lookup h c C Hv) as [xs Hc].
  apply view_collection_frame with h xs; auto.
  intros g Hg. apply Hgs. intros ->.
  exact (holds_newList_false h c xs Hc Hnot Hg).
Qed.

(** ** [checkAll] when there is no record to visit *)

Lemma checkAll_IndexError h c :
  collections h !! c = Some [] → checkAll c h = Some (Raise IndexError, h).
Proof.
  intros Hc. rewrite checkAll_unfold.
  unfold getitem_collection, iter_collection, read.
  unfold bind. rewrite Hc. reflexivity.
Qed.

Lemma checkAll_empty_first_group h c g xs :
  collections h !! c = Some (g :: xs) →
  groups h !! g = Some [] →
  checkAll c h = Some (Return newList, h).
Proof.
  intros Hc Hg. rewrite checkAll_unfold.
  unfold getitem_collection, iter_collection, len_group, iter_group, read, ret.
  unfold bind. rewrite Hc. simpl. rewrite Hg. reflexivity.
Qed.

(** ** Two calls in a row *)

Lemma checkAll_twice_run h c1 c2 G1 G2 Rs1 Rs2 old :
  view_collection h c1 = Some (attrs (G1 :: Rs1)) →
  holds_newList h c1 = false →
  view_collection h c2 = Some (attrs (G2 :: Rs2)) →
  holds_newList h c2 = false →
  view_group h newList = Some old →
  ∃ h1 h2,
    checkAll c1 h = Some (Return newList, h1)
    ∧ checkAll c2 h1 = Some (Return newList, h2)
    ∧ view_group h1 newList = Some (old ++ aggregate (G1 :: Rs1))
    ∧ view_group h2 newList
      = Some ((old ++ aggregate (G1 :: Rs1)) ++ aggregate (G2 :: Rs2)).
Proof.
  intros Hv1 Hn1 Hv2 Hn2 Hold.
  destruct (view_collection_lookup h c1 _ Hv1) as [xs1 Hc1].
  destruct (view_collection_lookup h c2 _ Hv2) as [xs2 Hc2].
  pose proof (holds_newList_false h c1 xs1 Hc1 Hn1) as Hnot1.
  pose proof (holds_newList_false h c2 xs2 Hc2 Hn2) as Hnot2.
  destruct (checkAll_run h c1 xs1 G1 Rs1 old Hv1 Hc1 Hnot1 Hold)
    as (h1 & Hrun1 & Hout1 & _ & Hcs1 & Hgs1 & Hsub1).
  assert (Hv2' : view_collection h1 c2 = Some (attrs (G2 :: Rs2))).
  { apply (checkAll_frame c1 h (Return newList) h1); assumption. }
  assert (Hc2' : collections h1 !! c2 = Some xs2) by (rewrite Hcs1; exact Hc2).
  destruct (checkAll_run h1 c2 xs2 G2 Rs2 _ Hv2' Hc2' Hnot2 Hout1)
    as (h2 & Hrun2 & Hout2 & _).
  exists h1, h2. auto.
Qed.

(** ** Literals denote what they spell *)

Lemma view_group_mono h h' g rs :
  groups h ⊆ groups h' →
  objects h ⊆ objects h' →
  view_group h g = Some rs → view_group h' g = Some rs.
Proof.
  intros Hg Ho Hv. apply (view_group_frame h); [|exact Ho|exact Hv].
  unfold view_group in Hv.
  destruct (groups h !! g) as [ys|] eqn:Hys; [|discriminate].
  apply (lookup_weaken _ _ _ _ Hys Hg).
Qed.

Lemma view_collection_mono h h' c C :
  collections h ⊆ collections h' →
  groups h ⊆ groups h' →
  objects h ⊆ objects h' →
  view_collection h c = Some C → view_collection h' c = Some C.
Proof.
  intros Hc Hg Ho Hv. unfold view_collection in *.
  destruct (collections h !! c) as [xs|] eqn:Hxs; [|discriminate].
  rewrite (lookup_weaken _ _ _ _ Hxs Hc). simpl in *.
  apply mapM_Some. apply mapM_Some in Hv.
  eapply Forall2_impl; [exact Hv|].
  intros g rs Hrs. simpl in Hrs. apply (view_group_mono h); assumption.
Qed.

Lemma holds_newList_mono h h' c C :
  collections h ⊆ collections h' →
  view_collection h c = Some C →
  holds_newList h' c = holds_newList h c.
Proof.
  intros Hc Hv. destruct (view_collection_lookup h c C Hv) as [xs Hxs].
  unfold holds_newList. rewrite Hxs, (lookup_weaken _ _ _ _ Hxs Hc). reflexivity.
Qed.

Lemma new_records_run fs h :
  ∃ ys h', new_records fs h = Some (Return ys, h')
    ∧ groups h' = groups h
    ∧ collections h' = collections h
    ∧ objects h ⊆ objects h'
    ∧ mapM (λ y, objects h' !! y) ys = Some (map Attrs fs).
Proof.
  revert h. induction fs as [|f fs IH]; intros h.
  - exists [], h. repeat (split; [reflexivity|]). reflexivity.
  - set (l := fresh (dom (objects h))).
    set (h1 := {| objects := <[l := Attrs (Fields (title f) (elo f))]> (objects h);
                  groups := groups h; collections := collections h |}).
    destruct (IH h1) as (ys & h' & Hrun & Hg & Hc & Hsub & Hview).
    exists (l :: ys), h'. split; [|split; [|split; [|split]]].
    + cbn [new_records]. unfold bind at 1. unfold new_Attrs. fold l. fold h1.
      unfold bind, ret. rewrite Hrun. reflexivity.
    + rewrite Hg. reflexivity.
    + rewrite Hc. reflexivity.
    + etransitivity; [|exact Hsub]. simpl. apply insert_subseteq, fresh_object.
    + apply mapM_Some. constructor; [|apply mapM_Some; exact Hview].
      eapply lookup_weaken; [|exact Hsub]. simpl.
      rewrite lookup_insert_eq. destruct f; reflexivity.
Qed.

Lemma new_groups_run R h :
  ∃ xs h', new_groups R h = Some (Return xs, h')
    ∧ collections h' = collections h
    ∧ objects h ⊆ objects h'
    ∧ groups h ⊆ groups h'
    ∧ mapM (view_group h') xs = Some (attrs R)
    ∧ (∀ x, x ∈ xs → groups h !! x = None).
Proof.
  revert h. induction R as [|G R IH]; intros h.
  - exists [], h. repeat (split; [reflexivity|]). intros x Hx. inversion Hx.
  - destruct (new_records_run G h) as (ys & h1 & Hrun1 & Hg1 & Hc1 & Hsub1 & Hview1).
    set (x := fresh (dom (groups h1))).
    set (h2 := {| objects := objects h1; groups := <[x := ys]> (groups h1);
                  collections := collections h1 |}).
    assert (Hx : groups h1 !! x = None) by (apply not_elem_of_dom, is_fresh).
    destruct (IH h2) as (xs & h' & Hrun & Hc & Hsub & Hgsub & Hview & Hnew).
    assert (Hg12 : groups h ⊆ groups h2).
    { rewrite <- Hg1. simpl. apply insert_subseteq. exact Hx. }
    exists (x :: xs), h'. split; [|split; [|split; [|split; [|split]]]].
    + cbn [new_groups]. unfold bind at 1. rewrite Hrun1.
      unfold bind at 1. unfold new_group. fold x. fold h2.
      unfold bind, ret. rewrite Hrun. reflexivity.
    + rewrite Hc. simpl. exact Hc1.
    + etransitivity; [exact Hsub1|exact Hsub].
    + etransitivity; [exact Hg12|exact Hgsub].
    + apply mapM_Some. constructor; [|apply mapM_Some; exact Hview].
      unfold view_group.
      rewrite (lookup_weaken (groups h2) (groups h') x ys);
        [|apply lookup_insert_eq|exact Hgsub].
      simpl. apply mapM_Some. apply mapM_Some in Hview1.
      eapply Forall2_impl; [exact Hview1|].
      intros y o Ho. simpl in Ho. eapply lookup_weaken; [exact Ho|exact Hsub].
    + intros x' Hx'. apply elem_of_cons in Hx' as [->|Hx'].
      * rewrite <- Hg1. exact Hx.
      * specialize (Hnew x' Hx').
        destruct (groups h !! x') as [zs|] eqn:Hz; [|reflexivity].
        rewrite (lookup_weaken _ _ _ _ Hz Hg12) in Hnew. discriminate.
Qed.

(** Written out as a literal, a collection denotes its records, is made of
    new lists only, and leaves every object of the store as it was. *)
Lemma literal_run R h :
  ∃ c h', literal R h = Some (Return c, h')
    ∧ view_collection h' c = Some (attrs R)
    ∧ (is_Some (groups h !! newList) → holds_newList h' c = false)
    ∧ collections h ⊆ collections h'
    ∧ groups h ⊆ groups h'
    ∧ objects h ⊆ objects h'.
Proof.
  destruct (new_groups_run R h) as (xs & h1 & Hrun & Hc & Hsub & Hgsub & Hview & Hnew).
  set (c := fresh (dom (collections h1))).
  set (h' := {| objects := objects h1; groups := groups h1;
                collections := <[c := xs]> (collections h1) |}).
  exists c, h'. split; [|split; [|split; [|split; [|split]]]].
  - unfold literal, bind. rewrite Hrun. reflexivity.
  - unfold view_collection. simpl. rewrite lookup_insert_eq. simpl. exact Hview.
  - intros [ls Hls]. unfold holds_newList. simpl. rewrite lookup_insert_eq.
    apply bool_decide_eq_false. intros Hin. rewrite (Hnew _ Hin) in Hls. discriminate.
  - simpl. rewrite <- Hc. apply insert_subseteq.
    apply not_elem_of_dom, is_fresh.
  - exact Hgsub.
  - exact Hsub.
Qed.

(** ** Calls on literals, right after the module has been loaded *)

Lemma total_for_run R n :
  run (total_for R n) = Some (Return (sum_of_matching R n)).
Proof.
  destruct (literal_run R module_loaded) as (c & h & Hlit & Hv & _).
  unfold run, total_for, bind. rewrite Hlit.
  rewrite (calculateTotalElo_attrs h c R n Hv). reflexivity.
Qed.

Lemma module_loaded_newList : view_group module_loaded newList = Some [].
Proof. reflexivity. Qed.

Lemma first_call_empty : run (first_call []) = Some (Raise IndexError).
Proof. vm_compute. reflexivity. Qed.

(** The first call of a process returns what the specification asks for. *)
Lemma first_call_run G Rs :
  run (first_call (G :: Rs)) = Some (Return (aggregate (G :: Rs))).
Proof.
  destruct (literal_run (G :: Rs) module_loaded)
    as (c & h & Hlit & Hv & Hnot & Hcs & Hgs & Hos).
  specialize (Hnot (ex_intro _ [] eq_refl)).
  destruct (view_collection_lookup h c _ Hv) as [xs Hc].
  pose proof (view_group_mono _ h _ _ Hgs Hos module_loaded_newList) as Hold.
  destruct (checkAll_run h c xs G Rs [] Hv Hc (holds_newList_false h c xs Hc Hnot) Hold)
    as (h' & Hrun & Hout & _).
  unfold run, first_call, bind. rewrite Hlit, Hrun.
  unfold records_of, read. rewrite Hout. reflexivity.
Qed.

(** A later call returns the entries of the earlier call, and its own after
    them. *)
Lemma two_calls_run G1 Rs1 G2 Rs2 :
  run (two_calls (G1 :: Rs1) (G2 :: Rs2))
  = Some (Return (aggregate (G1 :: Rs1),
                  aggregate (G1 :: Rs1) ++ aggregate (G2 :: Rs2))).
Proof.
  destruct (literal_run (G1 :: Rs1) module_loaded)
    as (c1 & h1 & Hlit1 & Hv1 & Hnot1 & Hcs1 & Hgs1 & Hos1).
  specialize (Hnot1 (ex_intro _ [] eq_refl)).
  pose proof (view_group_mono _ h1 _ _ Hgs1 Hos1 module_loaded_newList) as Hold1.
  destruct (literal_run (G2 :: Rs2) h1)
    as (c2 & h2 & Hlit2 & Hv2 & Hnot2 & Hcs2 & Hgs2 & Hos2).
  assert (Hnew : is_Some (groups h1 !! newList)).
  { exists []. apply (lookup_weaken _ _ _ _ (eq_refl : groups module_loaded !! newList = Some []) Hgs1). }
  specialize (Hnot2 Hnew).
  pose proof (view_collection_mono h1 h2 c1 _ Hcs2 Hgs2 Hos2 Hv1) as Hv1'.
  pose proof (holds_newList_mono h1 h2 c1 _ Hcs2 Hv1) as Hnot1'.
  rewrite Hnot1 in Hnot1'.
  pose proof (view_group_mono _ h2 _ _ Hgs2 Hos2 Hold1) as Hold2.
  destruct (checkAll_twice_run h2 c1 c2 G1 G2 Rs1 Rs2 [] Hv1' Hnot1' Hv2 Hnot2 Hold2)
    as (h3 & h4 & Hrun1 & Hrun2 & Hout1 & Hout2).
  unfold run, two_calls, bind. rewrite Hlit1, Hlit2, Hrun1.
  unfold records_of at 1, read. rewrite Hout1, Hrun2.
  unfold records_of, read. rewrite Hout2. reflexivity.
Qed.

(** ** The claims *)

(** On records that carry [title] and [elo] as attributes:
    [calculateTotalElo] returns exactly the arithmetic sum of the [elo] fields
    of the records, of every group, whose [title] is [n] (compared by exact
    string equality), and changes nothing; the sum is 0 when no record is
    named [n], and when every group is empty (in particular when there is no
    group at all). *)
Theorem calculateTotalElo_sum (h : heap) (c : loc) (R : list (list fields)) (n : string) :
  view_collection h c = Some (attrs R) →
  calculateTotalElo c n h = Some (Return (sum_of_matching R n), h)
  ∧ ((∀ r, r ∈ concat R → title r ≠ n) → sum_of_matching R n = 0%Z)
  ∧ (Forall (λ g, g = []) R → sum_of_matching R n = 0%Z).
Proof.
  intros Hv. split; [|split].
  - apply calculateTotalElo_attrs. exact Hv.
  - intros Hno. unfold sum_of_matching, matching.
    induction (concat R) as [|r rs IH]; [reflexivity|].
    rewrite filter_cons. rewrite decide_False.
    + apply IH. intros r' Hr'. apply Hno. right. exact Hr'.
    + apply Hno. left.
  - intros Hempty. clear Hv. unfold sum_of_matching, matching.
    replace (concat R) with (@nil fields); [reflexivity|].
    induction Hempty as [|g R' -> _ IH]; [reflexivity|]. simpl. exact IH.
Qed.

Lemma calculateTotalElo_sum_witness :
  view_collection store_1 1%positive = Some (attrs [[A10; B5]; [A3]])
  ∧ calculateTotalElo 1%positive "A"%string store_1 = Some (Return 13%Z, store_1).
Proof.
  split; [reflexivity|].
  apply (calculateTotalElo_sum store_1 1%positive [[A10; B5]; [A3]] "A"%string).
  reflexivity.
Defined.

(** [C1]  On records of the declared type the sum is never returned.  A
    record built by [MovieObject(title="A", elo=1)] is a dict, and line 13
    reads [y.title] on it: [calculateTotalElo] raises [AttributeError] when
    asked for "A", where the sum is 1, and when asked for "B", where no record
    matches and the sum is 0.  On a record that carries the same fields as
    attributes it returns 1 and 0. *)
Theorem calculateTotalElo_on_declared_records :
  run dict_records = Some (Raise AttributeError)
  ∧ run dict_record_other_name = Some (Raise AttributeError)
  ∧ run (total_for [[A1]] "A"%string) = Some (Return 1%Z)
  ∧ run (total_for [[A1]] "B"%string) = Some (Return 0%Z).
Proof. repeat split; vm_compute; reflexivity. Qed.

(** [C2]  What [checkAll] returns for [[[A10, B5], [A3]]].  As the first
    call of a process: the two records of the first group with their totals,
    in order.  After [checkAll([[X1]])], which returned one record: three
    records, the first of them [X1], because the entry of the earlier call is
    still in [newList].  The length is then 3, not the length 2 of the first
    group, and the record at index 0 is named X, not A. *)
Theorem checkAll_output_after_earlier_call :
  run scenario_1 = Some (Return [MovieObject A13; MovieObject B5])
  ∧ run scenario_1_second
    = Some (Return ([MovieObject X1],
                    [MovieObject X1; MovieObject A13; MovieObject B5])).
Proof. split; vm_compute; reflexivity. Qed.

(** [C3], as amended.  When the collection has no group, [movieList[0]]
    raises [IndexError] and nothing is changed.  When the collection has a
    first group and that group is empty, [checkAll] raises nothing, changes
    nothing and returns [newList]; what the caller finds in it is what it held
    before the call, so the empty sequence when it held nothing. *)
Theorem checkAll_no_first_record (h : heap) (c : loc) (xs : list loc) (old : list object) :
  collections h !! c = Some xs →
  view_group h newList = Some old →
  match xs with
  | [] => checkAll c h = Some (Raise IndexError, h)
  | g :: _ =>
      groups h !! g = Some [] →
      checkAll c h = Some (Return newList, h)
      ∧ (r ⇐ checkAll c; records_of r) h = Some (Return old, h)
  end.
Proof.
  intros Hc Hold. destruct xs as [|g xs'].
  - apply checkAll_IndexError. exact Hc.
  - intros Hg.
    pose proof (checkAll_empty_first_group h c g xs' Hc Hg) as Hrun.
    split; [exact Hrun|].
    unfold bind. rewrite Hrun. unfold records_of, read. rewrite Hold. reflexivity.
Qed.

Lemma checkAll_no_first_record_witness :
  (collections store_1 !! 3%positive = Some []
   ∧ view_group store_1 newList = Some []
   ∧ checkAll 3%positive store_1 = Some (Raise IndexError, store_1))
  ∧ (collections store_1 !! 4%positive = Some [6%positive]
     ∧ groups store_1 !! 6%positive = Some []
     ∧ (r ⇐ checkAll 4%positive; records_of r) store_1 = Some (Return [], store_1)).
Proof.
  split.
  - split; [reflexivity|]. split; [reflexivity|].
    apply (checkAll_no_first_record store_1 3%positive [] []); reflexivity.
  - split; [reflexivity|]. split; [reflexivity|].
    apply (checkAll_no_first_record store_1 4%positive [6%positive] []); reflexivity.
Defined.

(** [C3], as stated, fails: [checkAll([])] raises [IndexError]; it does not
    return an empty sequence. *)
Lemma checkAll_empty_collection_raises :
  run scenario_5 = Some (Raise IndexError)
  ∧ run scenario_5 ≠ Some (Return []).
Proof. split; [vm_compute; reflexivity|vm_compute; discriminate]. Qed.

(** [C4], as amended.  On a collection of records that carry [title] and
    [elo] as attributes, [calculateTotalElo] runs to completion, the empty
    collection included, whether or not one of the groups is [newList].
    [checkAll] runs to completion on such a collection when it has a first
    group and none of its groups is the list [newList]; on the empty
    collection it raises [IndexError]. *)
Theorem runs_to_completion (h : heap) (c : loc) (R : list (list fields))
    (n : string) :
  view_collection h c = Some (attrs R) →
  (∃ z, calculateTotalElo c n h = Some (Return z, h))
  ∧ match R with
    | [] => checkAll c h = Some (Raise IndexError, h)
    | _ :: _ =>
        ∀ ls, groups h !! newList = Some ls →
        holds_newList h c = false →
        ∃ h', checkAll c h = Some (Return newList, h')
    end.
Proof.
  intros Hv. split.
  - exists (sum_of_matching R n). apply calculateTotalElo_attrs. exact Hv.
  - destruct (view_collection_lookup h c _ Hv) as [xs Hc].
    destruct R as [|G Rs].
    + unfold view_collection in Hv. rewrite Hc in Hv. simpl in Hv.
      apply mapM_Some in Hv. inversion Hv; subst.
      apply checkAll_IndexError. exact Hc.
    + intros ls Hls Hnot.
      destruct (view_first_group h c G Rs Hv) as (g & xs' & ys & Hc' & Hg & Hys).
      assert (Hlen : length ys = length G).
      { apply Forall2_length in Hys. rewrite length_map in Hys. exact Hys. }
      destruct (passes_run c G Rs xs _ _ (seq_lookup_all G) h ls Hv Hc
                  (holds_newList_false h c xs Hc Hnot) Hls)
        as (h' & ls' & Hrun & _).
      exists h'. rewrite checkAll_unfold.
      unfold getitem_collection, iter_collection, len_group, iter_group, read, ret.
      unfold bind at 1 2 3 4. rewrite Hc'. simpl. rewrite Hg, Hlen.
      unfold bind. rewrite Hrun. reflexivity.
Qed.

Lemma runs_to_completion_witness :
  (view_collection store_1 1%positive = Some (attrs [[A10; B5]; [A3]])
   ∧ (∃ z, calculateTotalElo 1%positive "B"%string store_1
           = Some (Return z, store_1))
   ∧ groups store_1 !! newList = Some []
   ∧ holds_newList store_1 1%positive = false
   ∧ ∃ h', checkAll 1%positive store_1 = Some (Return newList, h'))
  ∧ (view_collection store_2 1%positive = Some (attrs [[A1; B5]; []])
     ∧ holds_newList store_2 1%positive = true
     ∧ ∃ z, calculateTotalElo 1%positive "A"%string store_2
            = Some (Return z, store_2))
  ∧ (view_collection store_1 3%positive = Some (attrs [])
     ∧ checkAll 3%positive store_1 = Some (Raise IndexError, store_1)).
Proof.
  split; [|split].
  - destruct (runs_to_completion store_1 1%positive [[A10; B5]; [A3]] "B"%string
                eq_refl) as [Hcalc Hcheck].
    split; [reflexivity|]. split; [exact Hcalc|].
    split; [reflexivity|]. split; [reflexivity|].
    exact (Hcheck [] eq_refl eq_refl).
  - split; [reflexivity|]. split; [reflexivity|].
    exact (proj1 (runs_to_completion store_2 1%positive [[A1; B5]; []] "A"%string
                    eq_refl)).
  - split; [reflexivity|].
    exact (proj2 (runs_to_completion store_1 3%positive [] "A"%string eq_refl)).
Defined.

(** [C4], as stated, fails on the empty sequence: [calculateTotalElo([], "A")]
    returns 0, but [checkAll([])] then raises [IndexError]. *)
Lemma checkAll_raises_on_empty_sequence :
  run (total_for [] "A"%string) = Some (Return 0%Z)
  ∧ run empty_collection = Some (Raise IndexError).
Proof. split; vm_compute; reflexivity. Qed.

(** A record built by [MovieObject(...)] is a dict: reading [y.title] on it
    raises [AttributeError]. *)
Example calculateTotalElo_on_dicts :
  run dict_records = Some (Raise AttributeError).
Proof. vm_compute. reflexivity. Qed.

(** [C5]  Two calls in a row on the same, unchanged [[[A1]]]: the first
    returns a list holding one record, the second returns a list holding two.
    Both calls return the same list object, so the caller's first result has
    grown to two records as well. *)
Theorem checkAll_same_input_twice :
  run same_input_twice
  = Some (Return ([MovieObject A1],
                  [MovieObject A1; MovieObject A1],
                  [MovieObject A1; MovieObject A1],
                  true)).
Proof. vm_compute. reflexivity. Qed.

(** [C6]  The list [checkAll] returns exists before the call, from the moment
    the module is loaded, and is the same for every call; the entry made by
    [checkAll([[A1]])] is still in it when [checkAll([[]])] returns. *)
Theorem checkAll_keeps_earlier_entries :
  groups module_loaded !! newList = Some []
  ∧ run then_empty_group = Some (Return (newList, newList, [MovieObject A1])).
Proof. split; vm_compute; reflexivity. Qed.

(** [C7]  [checkAll([[A2], [B9]])] returns exactly [[A2]] when it is the
    first call of a process; after [checkAll([[A10, B5], [A3]])], which
    returned two records, it returns three records, one of them named B. *)
Theorem checkAll_scenario_3 :
  run scenario_3 = Some (Return [MovieObject A2])
  ∧ run scenario_3_second
    = Some (Return ([MovieObject A13; MovieObject B5],
                    [MovieObject A13; MovieObject B5; MovieObject A2])).
Proof. split; vm_compute; reflexivity. Qed.

(** [C8]  With [r = checkAll([[]])] and [c = [[A1], r]], the call
    [checkAll(c)] appends to [c[1]]: the second group of the collection is
    empty before the call and holds one record after it. *)
Theorem checkAll_appends_to_its_input :
  run result_as_group
  = Some (Return ([[Attrs A1]; []],
                  [[Attrs A1]; [MovieObject A1]])).
Proof. vm_compute. reflexivity. Qed.

(** [C9]  Every call of [checkAll] that returns, returns the one list object
    [newList], and calls accumulate into it: after [checkAll(c1)] and then
    [checkAll(c2)], the list returned by the second call holds what the first
    call returned, followed by the records computed from [c2].  It is
    [length G1 + length G2] records longer than [newList] was before the two
    calls, so of that length when [newList] was empty, as it is when the
    module has just been loaded. *)
Theorem checkAll_accumulates (h : heap) (c1 c2 : loc)
    (G1 G2 : list fields) (Rs1 Rs2 : list (list fields)) (old : list object) :
  view_collection h c1 = Some (attrs (G1 :: Rs1)) →
  holds_newList h c1 = false →
  view_collection h c2 = Some (attrs (G2 :: Rs2)) →
  holds_newList h c2 = false →
  view_group h newList = Some old →
  (∀ c0 h0 r h0', checkAll c0 h0 = Some (Return r, h0') → r = newList)
  ∧ ∃ h1 h2 out1 out2,
      checkAll c1 h = Some (Return newList, h1)
      ∧ checkAll c2 h1 = Some (Return newList, h2)
      ∧ view_group h1 newList = Some out1
      ∧ view_group h2 newList = Some out2
      ∧ out1 = old ++ aggregate (G1 :: Rs1)
      ∧ out2 = out1 ++ aggregate (G2 :: Rs2)
      ∧ length out2 = (length old + (length G1 + length G2))%nat
      ∧ (old = [] → length out2 = (length G1 + length G2)%nat).
Proof.
  intros Hv1 Hn1 Hv2 Hn2 Hold.
  split; [intros c0 h0 r h0'; apply checkAll_returns_newList|].
  destruct (checkAll_twice_run h c1 c2 G1 G2 Rs1 Rs2 old Hv1 Hn1 Hv2 Hn2 Hold)
    as (h1 & h2 & Hrun1 & Hrun2 & Hout1 & Hout2).
  exists h1, h2, (old ++ aggregate (G1 :: Rs1)),
    ((old ++ aggregate (G1 :: Rs1)) ++ aggregate (G2 :: Rs2)).
  assert (Hlen : length ((old ++ aggregate (G1 :: Rs1)) ++ aggregate (G2 :: Rs2))
                 = (length old + (length G1 + length G2))%nat).
  { rewrite !length_app. simpl. rewrite !length_map. lia. }
  repeat (split; [first [assumption|reflexivity]|]).
  intros ->. rewrite Hlen. reflexivity.
Qed.

Lemma checkAll_accumulates_witness :
  view_collection store_1 1%positive = Some (attrs [[A10; B5]; [A3]])
  ∧ holds_newList store_1 1%positive = false
  ∧ view_collection store_1 2%positive = Some (attrs [[A2]; [B9]])
  ∧ holds_newList store_1 2%positive = false
  ∧ view_group store_1 newList = Some []
  ∧ (∀ c0 h0 r h0', checkAll c0 h0 = Some (Return r, h0') → r = newList)
  ∧ ∃ h1 h2 out1 out2,
      checkAll 1%positive store_1 = Some (Return newList, h1)
      ∧ checkAll 2%positive h1 = Some (Return newList, h2)
      ∧ view_group h1 newList = Some out1
      ∧ view_group h2 newList = Some out2
      ∧ out1 = [MovieObject A13; MovieObject B5]
      ∧ out2 = out1 ++ [MovieObject A2]
      ∧ length out2 = 3%nat
      ∧ ([] = @nil object → length out2 = 3%nat).
Proof.
  repeat (split; [reflexivity|]).
  apply (checkAll_accumulates store_1 1%positive 2%positive
           [A10; B5] [A2] [[A3]] [[B9]] []); reflexivity.
Defined.

(** [C10]  The total does not depend on how the records are grouped:
    [calculateTotalElo] ends the same way on a collection and on the
    collection whose single group holds all its records in order; and on a
    collection whose groups are those of one collection followed by those of
    another it returns the sum of the two totals. *)
Theorem calculateTotalElo_regroup (h : heap) (c : loc) (C : list (list object)) (n : string) :
  view_collection h c = Some C →
  (∀ h' c', view_collection h' c' = Some [concat C] →
     calculateTotalElo c' n h' = Some (scan (concat C) n 0%Z, h')
     ∧ fst <$> calculateTotalElo c' n h' = fst <$> calculateTotalElo c n h)
  ∧ (∀ Ra Rb ha ca hb cb,
       C = attrs (Ra ++ Rb) →
       view_collection ha ca = Some (attrs Ra) →
       view_collection hb cb = Some (attrs Rb) →
       ∃ za zb,
         calculateTotalElo ca n ha = Some (Return za, ha)
         ∧ calculateTotalElo cb n hb = Some (Return zb, hb)
         ∧ calculateTotalElo c n h = Some (Return (za + zb)%Z, h)).
Proof.
  intros Hv. split.
  - intros h' c' Hv'.
    rewrite (calculateTotalElo_run h c C n Hv).
    rewrite (calculateTotalElo_run h' c' _ n Hv').
    simpl. rewrite app_nil_r. split; reflexivity.
  - intros Ra Rb ha ca hb cb -> Ha Hb.
    exists (sum_of_matching Ra n), (sum_of_matching Rb n).
    split; [apply calculateTotalElo_attrs; exact Ha|].
    split; [apply calculateTotalElo_attrs; exact Hb|].
    rewrite (calculateTotalElo_run h c _ n Hv), scan_attrs. do 3 f_equal.
    unfold sum_of_matching, matching.
    rewrite concat_app, filter_app, map_app, foldr_app.
    generalize (map elo (filter (λ r, title r = n) (concat Rb))).
    generalize (map elo (filter (λ r, title r = n) (concat Ra))).
    intros l1 l2. induction l1 as [|z l1 IH]; simpl; [lia|]. rewrite IH. lia.
Qed.

Lemma calculateTotalElo_regroup_witness :
  view_collection store_1 1%positive = Some (attrs [[A10; B5]; [A3]])
  ∧ (view_collection store_1 5%positive = Some [concat (attrs [[A10; B5]; [A3]])]
     ∧ calculateTotalElo 5%positive "A"%string store_1 = Some (Return 13%Z, store_1)
     ∧ calculateTotalElo 1%positive "A"%string store_1 = Some (Return 13%Z, store_1))
  ∧ ∃ za zb,
      calculateTotalElo 7%positive "A"%string store_1 = Some (Return za, store_1)
      ∧ calculateTotalElo 6%positive "A"%string store_1 = Some (Return zb, store_1)
      ∧ calculateTotalElo 1%positive "A"%string store_1
        = Some (Return (za + zb)%Z, store_1).
Proof.
  pose proof (calculateTotalElo_regroup store_1 1%positive
                (attrs [[A10; B5]; [A3]]) "A"%string eq_refl) as [Hflat Hsum].
  split; [reflexivity|]. split.
  - split; [reflexivity|].
    destruct (Hflat store_1 5%positive eq_refl) as [H5 _].
    split; [exact H5|reflexivity].
  - apply (Hsum [[A10; B5]] [[A3]] store_1 7%positive store_1 6%positive);
      reflexivity.
Defined.

(** ** Further properties *)

(** *** Which exceptions can be raised *)

Lemma raises_only_ret {A} P (a : A) : raises_only P (ret a).
Proof. intros h e h' H. discriminate. Qed.

Lemma raises_only_read {A} P (f : heap → option A) : raises_only P (read f).
Proof. intros h e h' H. unfold read in H. destruct (f h); discriminate. Qed.

Lemma raises_only_raise {A} (P : exn → Prop) e : P e → raises_only P (raise (A := A) e).
Proof. intros HP h e' h' H. injection H as <- _. exact HP. Qed.

Lemma raises_only_bind {A B} P (m : M A) (f : A → M B) :
  raises_only P m → (∀ a, raises_only P (f a)) → raises_only P (bind m f).
Proof.
  intros Hm Hf h e h' H. unfold bind in H.
  destruct (m h) as [[[a|e1] h1]|] eqn:Hmh; [| |discriminate].
  - exact (Hf a h1 e h' H).
  - injection H as <- <-. exact (Hm h e1 h1 Hmh).
Qed.

Lemma raises_only_for_each {A S} P (xs : list A) (body : A → S → M S) :
  (∀ x s, raises_only P (body x s)) → ∀ s, raises_only P (for_each xs body s).
Proof.
  intros Hbody. induction xs as [|x xs IH]; intros s; simpl.
  - apply raises_only_ret.
  - apply raises_only_bind; [apply Hbody|exact IH].
Qed.

Lemma raises_only_getattr_title y :
  raises_only (λ e, e = AttributeError) (getattr_title y).
Proof.
  apply raises_only_bind; [apply raises_only_read|].
  intros [f|f]; [apply raises_only_ret|apply raises_only_raise; reflexivity].
Qed.

Lemma raises_only_getattr_elo y :
  raises_only (λ e, e = AttributeError) (getattr_elo y).
Proof.
  apply raises_only_bind; [apply raises_only_read|].
  intros [f|f]; [apply raises_only_ret|apply raises_only_raise; reflexivity].
Qed.

Lemma calculateTotalElo_raises_only movieList movieName :
  raises_only (λ e, e = AttributeError) (calculateTotalElo movieList movieName).
Proof.
  apply raises_only_bind; [apply raises_only_read|]. intros xs.
  apply raises_only_for_each. intros x totalElo.
  apply raises_only_bind; [apply raises_only_read|]. intros ys.
  apply raises_only_for_each. intros y totalElo'.
  apply raises_only_bind; [apply raises_only_getattr_title|]. intros t.
  destruct (String.eqb t movieName); [|apply raises_only_ret].
  apply raises_only_bind; [apply raises_only_getattr_elo|]. intros e.
  apply raises_only_ret.
Qed.

(** [X1]  However [calculateTotalElo] ends, on whatever store and arguments,
    it has changed nothing in the store, and the only exception it can raise
    is [AttributeError]: it indexes nothing, so it never raises
    [IndexError]. *)
Theorem calculateTotalElo_reads_only (movieList : loc) (movieName : string)
    (h h' : heap) (o : outcome Z) :
  calculateTotalElo movieList movieName h = Some (o, h') →
  h' = h ∧ (∀ e, o = Raise e → e = AttributeError).
Proof.
  intros Hrun. split.
  - exact (calculateTotalElo_pure movieList movieName h o h' Hrun).
  - intros e ->. exact (calculateTotalElo_raises_only movieList movieName h e h' Hrun).
Qed.

Lemma calculateTotalElo_reads_only_witness :
  calculateTotalElo 2%positive "A"%string store_2 = Some (Raise AttributeError, store_2)
  ∧ store_2 = store_2
  ∧ (∀ e, Raise (A := Z) AttributeError = Raise e → e = AttributeError).
Proof.
  split; [reflexivity|].
  apply (calculateTotalElo_reads_only 2%positive "A"%string store_2 store_2
           (Raise AttributeError)).
  reflexivity.
Defined.

Lemma scan_dict rs f n acc :
  MovieObject f ∈ rs → scan rs n acc = Raise AttributeError.
Proof.
  revert acc. induction rs as [|[g|g] rs IH]; intros acc Hin.
  - inversion Hin.
  - simpl. apply IH. apply elem_of_cons in Hin as [Heq|Hin]; [discriminate|exact Hin].
  - reflexivity.
Qed.

Lemma scan_Raise rs n acc e :
  scan rs n acc = Raise e → e = AttributeError ∧ ∃ f, MovieObject f ∈ rs.
Proof.
  revert acc. induction rs as [|[g|g] rs IH]; intros acc H; simpl in H.
  - discriminate.
  - destruct (IH _ H) as [He [f Hf]]. split; [exact He|]. exists f. right. exact Hf.
  - injection H as <-. split; [reflexivity|]. exists g. left.
Qed.

(** [X2]  [calculateTotalElo] raises [AttributeError] exactly when one of the
    records of the collection, in whatever group and under whatever name, is
    a dict built by [MovieObject]: every record is asked for its [title]
    attribute, not only the records named [movieName]. *)
Theorem calculateTotalElo_AttributeError (h : heap) (c : loc)
    (C : list (list object)) (n : string) :
  view_collection h c = Some C →
  calculateTotalElo c n h = Some (Raise AttributeError, h)
  ↔ ∃ f, MovieObject f ∈ concat C.
Proof.
  intros Hv. rewrite (calculateTotalElo_run h c C n Hv). split.
  - intros H. injection H as H. apply scan_Raise in H as [_ Hf]. exact Hf.
  - intros [f Hf]. rewrite (scan_dict _ f n 0%Z Hf). reflexivity.
Qed.

Lemma calculateTotalElo_AttributeError_witness :
  view_collection store_2 2%positive
  = Some [[Attrs A1; Attrs B5]; [MovieObject A13]]
  ∧ (calculateTotalElo 2%positive "B"%string store_2
     = Some (Raise AttributeError, store_2)
     ↔ ∃ f, MovieObject f ∈ concat [[Attrs A1; Attrs B5]; [MovieObject A13]]).
Proof.
  split; [reflexivity|].
  apply (calculateTotalElo_AttributeError store_2 2%positive
           [[Attrs A1; Attrs B5]; [MovieObject A13]] "B"%string).
  reflexivity.
Defined.

(** *** One pass, whatever the store *)

(** A pass of the loop of [checkAll] ends in one of three ways: the index is
    out of range, a dict is met, or a new dict is appended to [newList]. *)
Lemma append_total_inv c i h o h' :
  append_total c i tt h = Some (o, h') →
  (o = Raise IndexError ∧ h' = h
   ∧ ∃ xs, collections h !! c = Some xs
       ∧ match xs with
         | [] => True
         | g :: _ => ∃ ys, groups h !! g = Some ys ∧ length ys ≤ i
         end)
  ∨ (o = Raise AttributeError ∧ h' = h)
  ∨ (∃ ls f, o = Return tt ∧ groups h !! newList = Some ls
       ∧ h' = after_pass h ls (MovieObject f)).
Proof.
  unfold append_total.
  unfold getitem_collection at 1, iter_collection, read. unfold bind at 1 2.
  destruct (collections h !! c) as [xs|] eqn:Hc; [|discriminate].
  destruct xs as [|g xs]; simpl.
  { intros H. injection H as <- <-. left. split; [reflexivity|].
    split; [reflexivity|]. exists []. auto. }
  unfold getitem_group at 1, iter_group, read. unfold bind at 1 2.
  destruct (groups h !! g) as [ys|] eqn:Hg; [|discriminate].
  destruct (ys !! i) as [y|] eqn:Hy; simpl.
  2:{ intros H. injection H as <- <-. left. split; [reflexivity|].
      split; [reflexivity|]. exists (g :: xs).
      split; [first [reflexivity|exact Hc]|].
      exists ys. split; [first [reflexivity|exact Hg]|].
      apply lookup_ge_None. exact Hy. }
  unfold getattr_title at 1, read. unfold bind at 1 2.
  destruct (objects h !! y) as [[f|f]|] eqn:Ho; [| |discriminate]; simpl.
  2:{ intros H. injection H as <- <-. right. left. auto. }
  unfold bind at 1.
  destruct (calculateTotalElo c (title f) h) as [[[z|e] h1]|] eqn:Hcalc;
    [| |discriminate].
  2:{ intros H. injection H as <- <-. right. left.
      rewrite (calculateTotalElo_raises_only _ _ _ _ _ Hcalc).
      rewrite (calculateTotalElo_pure _ _ _ _ _ Hcalc). auto. }
  rewrite (calculateTotalElo_pure _ _ _ _ _ Hcalc).
  unfold getitem_collection, iter_collection, getitem_group, iter_group,
    getattr_title, read, ret.
  unfold bind at 1 2 3 4 5 6. rewrite Hc. simpl. rewrite Hg, Hy, Ho.
  unfold bind, new_MovieObject, append. simpl.
  destruct (groups h !! newList) as [ls|] eqn:Hnew; [|discriminate].
  intros H. injection H as <- <-. right. right.
  exists ls, (Fields (title f) z). auto.
Qed.

(** *** The whole loop, whatever the store *)

Lemma add_dict_extends h f : extends h (add_dict h f).
Proof.
  unfold add_dict. destruct (groups h !! newList) as [ls|] eqn:Hls;
    [|apply extends_refl].
  split; [reflexivity|]. split; [|split].
  - intros g Hne. apply after_pass_groups. exact Hne.
  - apply after_pass_objects.
  - intros ls' Hls'. rewrite Hls in Hls'. injection Hls' as <-.
    eexists. simpl. apply lookup_insert_eq.
Qed.

Lemma add_dicts_extends h fs : extends h (add_dicts h fs).
Proof.
  unfold add_dicts. revert h. induction fs as [|f fs IH]; intros h; simpl.
  - apply extends_refl.
  - eapply extends_trans; [apply add_dict_extends|apply IH].
Qed.

Lemma add_dict_view h f old :
  view_group h newList = Some old →
  view_group (add_dict h f) newList = Some (old ++ [MovieObject f]).
Proof.
  intros Hold. unfold add_dict. unfold view_group in Hold.
  destruct (groups h !! newList) as [ls|] eqn:Hls; [|discriminate].
  simpl in Hold. apply mapM_Some in Hold.
  unfold view_group. simpl. rewrite lookup_insert_eq. simpl.
  apply mapM_Some. apply Forall2_app.
  - eapply Forall2_impl; [exact Hold|]. intros l o Ho. simpl in Ho.
    rewrite lookup_insert_ne; [exact Ho|].
    intros Heq. rewrite <- Heq, fresh_object in Ho. discriminate.
  - constructor; [|constructor]. apply lookup_insert_eq.
Qed.

Lemma add_dicts_view h fs old :
  view_group h newList = Some old →
  view_group (add_dicts h fs) newList = Some (old ++ map MovieObject fs).
Proof.
  unfold add_dicts. revert h old. induction fs as [|f fs IH]; intros h old Hold; simpl.
  - rewrite app_nil_r. exact Hold.
  - rewrite (IH _ _ (add_dict_view h f old Hold)), <- app_assoc. reflexivity.
Qed.

Lemma add_dicts_group_length h fs g ys :
  groups h !! g = Some ys →
  ∃ ys', groups (add_dicts h fs) !! g = Some (ys ++ ys').
Proof.
  intros Hg. destruct (add_dicts_extends h fs) as (_ & Hgs & _ & Hnew).
  destruct (decide (g = newList)) as [->|Hne].
  - exact (Hnew ys Hg).
  - exists []. rewrite app_nil_r, Hgs by exact Hne. exact Hg.
Qed.

Lemma passes_inv c g xs ys :
  ∀ idx h o h',
  collections h !! c = Some (g :: xs) →
  groups h !! g = Some ys →
  (∀ i, i ∈ idx → i < length ys) →
  for_each idx (append_total c) tt h = Some (o, h') →
  ∃ fs, h' = add_dicts h fs
    ∧ ((o = Return tt ∧ length fs = length idx)
       ∨ (o = Raise AttributeError ∧ length fs < length idx)).
Proof.
  intros idx. revert ys. induction idx as [|i idx IH]; intros ys h o h' Hc Hg Hlt Hrun.
  - simpl in Hrun. injection Hrun as <- <-. exists []. split; [reflexivity|].
    left. auto.
  - cbn [for_each] in Hrun. unfold bind at 1 in Hrun.
    destruct (append_total c i tt h) as [[[[]|e] h1]|] eqn:Hpass; [| |discriminate].
    + destruct (append_total_inv c i h _ _ Hpass)
        as [(Habs & _)|[(Habs & _)|(ls & f & _ & Hls & ->)]]; try discriminate.
      assert (Hadd : after_pass h ls (MovieObject f) = add_dict h f).
      { unfold add_dict. rewrite Hls. reflexivity. }
      rewrite Hadd in Hrun.
      destruct (add_dicts_group_length h [f] g ys Hg) as [ys' Hg'].
      destruct (IH (ys ++ ys') (add_dict h f) o h') as (fs & -> & Hcases).
      * destruct (add_dict_extends h f) as (-> & _). exact Hc.
      * exact Hg'.
      * intros j Hj. rewrite length_app.
        specialize (Hlt j (list_elem_of_further _ _ _ Hj)). lia.
      * exact Hrun.
      * exists (f :: fs). split; [reflexivity|]. simpl.
        destruct Hcases as [[-> Hlen]|[-> Hlen]]; [left|right]; split;
          first [reflexivity|lia].
    + injection Hrun as <- <-.
      destruct (append_total_inv c i h _ _ Hpass)
        as [(_ & _ & xs0 & Hc0 & Hxs0)|[(He & ->)|(ls & f & Habs & _)]];
        [| |discriminate].
      * exfalso. rewrite Hc in Hc0. injection Hc0 as <-.
        destruct Hxs0 as (ys0 & Hg0 & Hle). rewrite Hg in Hg0. injection Hg0 as <-.
        specialize (Hlt i (list_elem_of_here _ _)). lia.
      * injection He as ->. exists []. split; [reflexivity|]. right.
        split; [reflexivity|]. simpl. lia.
Qed.

(** How a call of [checkAll] can end, on any store: on the empty collection
    with [IndexError] and nothing changed; otherwise by returning [newList]
    after one dict per record of the first group has been appended to it, or
    with [AttributeError] after fewer dicts have been appended. *)
Lemma checkAll_inv c h o h' :
  checkAll c h = Some (o, h') →
  (collections h !! c = Some [] ∧ o = Raise IndexError ∧ h' = h)
  ∨ ∃ g xs ys fs,
      collections h !! c = Some (g :: xs)
      ∧ groups h !! g = Some ys
      ∧ h' = add_dicts h fs
      ∧ ((o = Return newList ∧ length fs = length ys)
         ∨ (o = Raise AttributeError ∧ length fs < length ys)).
Proof.
  rewrite checkAll_unfold.
  unfold getitem_collection, iter_collection, read. unfold bind at 1 2.
  destruct (collections h !! c) as [xs|] eqn:Hc; [|discriminate].
  destruct xs as [|g xs]; simpl.
  { intros H. injection H as <- <-. left. auto. }
  unfold len_group, iter_group, read, ret. unfold bind at 1 2.
  destruct (groups h !! g) as [ys|] eqn:Hg; [|discriminate].
  assert (Hlt : ∀ i, i ∈ seq 0 (length ys) → i < length ys).
  { intros i Hi. apply elem_of_seq in Hi. lia. }
  unfold bind.
  destruct (for_each (seq 0 (length ys)) (append_total c) tt h)
    as [[[[]|e] h1]|] eqn:Hloop; [| |discriminate]; intros H; injection H as <- <-.
  - destruct (passes_inv c g xs ys _ h _ _ Hc Hg Hlt Hloop)
      as (fs & -> & [[_ Hlen]|[Habs _]]); [|discriminate].
    right. exists g, xs, ys, fs. rewrite length_seq in Hlen. auto 6.
  - destruct (passes_inv c g xs ys _ h _ _ Hc Hg Hlt Hloop)
      as (fs & -> & [[Habs _]|[He Hlen]]); [discriminate|].
    injection He as ->.
    right. exists g, xs, ys, fs. rewrite length_seq in Hlen. auto 6.
Qed.

(** [X3]  Given a list of lists of records, on any store and however the
    call ends, [checkAll] raises [IndexError] exactly when the collection has
    no group, and then it has changed nothing.  Once the collection has a
    first group, no index [movieList[0][i]] of the loop is out of range, even
    when the first group is [newList] itself and grows during the loop. *)
Theorem checkAll_exceptions (c : loc) (h h' : heap) (o : outcome loc) :
  checkAll c h = Some (o, h') →
  (o = Raise IndexError ↔ collections h !! c = Some [])
  ∧ (o = Raise IndexError → h' = h).
Proof.
  intros Hrun.
  destruct (checkAll_inv c h o h' Hrun)
    as [(Hc & -> & ->)|(g & xs & ys & fs & Hc & Hg & -> & [[-> _]|[-> _]])].
  - split; [tauto|reflexivity].
  - split; [|discriminate].
    split; [discriminate|]. rewrite Hc. discriminate.
  - split; [|discriminate].
    split; [discriminate|]. rewrite Hc. discriminate.
Qed.

Lemma checkAll_exceptions_witness :
  (checkAll 3%positive store_1 = Some (Raise IndexError, store_1)
   ∧ (Raise (A := loc) IndexError = Raise IndexError
      ↔ collections store_1 !! 3%positive = Some [])
   ∧ (Raise (A := loc) IndexError = Raise IndexError → store_1 = store_1))
  ∧ (checkAll 2%positive store_2 = Some (Raise AttributeError, store_2)
     ∧ (Raise (A := loc) AttributeError = Raise IndexError
        ↔ collections store_2 !! 2%positive = Some []))
  ∧ ∃ o h', checkAll 1%positive store_1 = Some (o, h')
      ∧ (o = Raise IndexError ↔ collections store_1 !! 1%positive = Some []).
Proof.
  split; [|split].
  - split; [reflexivity|].
    apply (checkAll_exceptions 3%positive store_1 store_1 (Raise IndexError)).
    reflexivity.
  - split; [reflexivity|].
    apply (checkAll_exceptions 2%positive store_2 store_2 (Raise AttributeError)).
    reflexivity.
  - eexists. eexists. split; [vm_compute; reflexivity|].
    eapply (checkAll_exceptions 1%positive store_1). vm_compute. reflexivity.
Defined.

(** [X4]  However a call of [checkAll] ends, it has left every collection
    none of whose groups is [newList] exactly as it was: the same groups, each
    with the same records with the same fields.  No collection gains or loses
    a group, no list other than [newList] is written to, and no object that
    existed before the call is changed. *)
Theorem checkAll_leaves_other_lists (c c' : loc) (h h' : heap) (o : outcome loc)
    (C : list (list object)) :
  checkAll c h = Some (o, h') →
  view_collection h c' = Some C →
  holds_newList h c' = false →
  view_collection h' c' = Some C
  ∧ collections h' = collections h
  ∧ (∀ g, g ≠ newList → groups h' !! g = groups h !! g)
  ∧ objects h ⊆ objects h'.
Proof.
  intros Hrun Hv Hnot.
  destruct (checkAll_grows c h o h' Hrun) as (Hcs & Hgs & Hsub & _).
  split; [|auto].
  exact (checkAll_frame c h o h' c' C Hrun Hv Hnot).
Qed.

Lemma checkAll_leaves_other_lists_witness :
  ∃ o h',
    checkAll 1%positive store_2 = Some (o, h')
    ∧ view_collection store_2 4%positive = Some (attrs [[A1; B5]])
    ∧ holds_newList store_2 4%positive = false
    ∧ view_collection h' 4%positive = Some (attrs [[A1; B5]])
    ∧ collections h' = collections store_2
    ∧ (∀ g, g ≠ newList → groups h' !! g = groups store_2 !! g)
    ∧ objects store_2 ⊆ objects h'.
Proof.
  eexists. eexists. split; [vm_compute; reflexivity|].
  split; [reflexivity|]. split; [reflexivity|].
  eapply (checkAll_leaves_other_lists 1%positive 4%positive store_2);
    [vm_compute; reflexivity|reflexivity|reflexivity].
Defined.

(** [X5]  All that a call of [checkAll] does to [newList], however it ends:
    the entries it held stay in place, and dicts built by [MovieObject] are
    appended behind them; exactly one per record that the first group held
    when the call began if the call returns, fewer if it raises, none on the
    empty collection. *)
Theorem checkAll_appends_dicts (c : loc) (h h' : heap) (o : outcome loc)
    (old : list object) :
  checkAll c h = Some (o, h') →
  view_group h newList = Some old →
  ∃ fs,
    view_group h' newList = Some (old ++ map MovieObject fs)
    ∧ (collections h !! c = Some [] → fs = [])
    ∧ (∀ g xs ys,
         collections h !! c = Some (g :: xs) → groups h !! g = Some ys →
         (o = Return newList ∧ length fs = length ys)
         ∨ (o = Raise AttributeError ∧ length fs < length ys)).
Proof.
  intros Hrun Hold.
  destruct (checkAll_inv c h o h' Hrun)
    as [(Hc & -> & ->)|(g & xs & ys & fs & Hc & Hg & -> & Hcases)].
  - exists []. rewrite app_nil_r. split; [exact Hold|]. split; [reflexivity|].
    intros g xs ys Hc'. rewrite Hc in Hc'. discriminate.
  - exists fs. split; [apply add_dicts_view; exact Hold|].
    split; [rewrite Hc; discriminate|].
    intros g' xs' ys' Hc' Hg'. rewrite Hc in Hc'. injection Hc' as <- <-.
    rewrite Hg in Hg'. injection Hg' as <-. exact Hcases.
Qed.

Lemma checkAll_appends_dicts_witness :
  ∃ o h',
    checkAll 4%positive store_3 = Some (o, h')
    ∧ view_group store_3 newList = Some [MovieObject A13]
    ∧ ∃ fs,
        view_group h' newList = Some ([MovieObject A13] ++ map MovieObject fs)
        ∧ (collections store_3 !! 4%positive = Some [] → fs = [])
        ∧ (∀ g xs ys,
             collections store_3 !! 4%positive = Some (g :: xs) →
             groups store_3 !! g = Some ys →
             (o = Return newList ∧ length fs = length ys)
             ∨ (o = Raise AttributeError ∧ length fs < length ys)).
Proof.
  eexists. eexists. split; [vm_compute; reflexivity|].
  split; [reflexivity|].
  eapply (checkAll_appends_dicts 4%positive store_3);
    [vm_compute; reflexivity|reflexivity].
Defined.

(** *** Dicts met on the way *)

Lemma view_first_objects h c G Rs :
  view_collection h c = Some (G :: Rs) →
  ∃ g xs ys, collections h !! c = Some (g :: xs)
    ∧ groups h !! g = Some ys
    ∧ Forall2 (λ y o, objects h !! y = Some o) ys G.
Proof.
  unfold view_collection. intros Hv.
  destruct (collections h !! c) as [xs|] eqn:Hc; [|discriminate]. simpl in Hv.
  apply mapM_Some in Hv.
  inversion Hv as [|g rs xs' C' Hg Hrest]; subst.
  unfold view_group in Hg.
  destruct (groups h !! g) as [ys|] eqn:Hys; [|discriminate]. simpl in Hg.
  apply mapM_Some in Hg. eauto 6.
Qed.

(** The first pass meets a dict as soon as there is one anywhere. *)
Lemma first_pass_AttributeError h c o1 G Rs f :
  view_collection h c = Some ((o1 :: G) :: Rs) →
  MovieObject f ∈ concat ((o1 :: G) :: Rs) →
  append_total c 0 tt h = Some (Raise AttributeError, h).
Proof.
  intros Hv Hf.
  destruct (view_first_objects h c _ _ Hv) as (g & xs & ys & Hc & Hg & Hys).
  inversion Hys as [|y o ys' G' Ho Hrest]; subst.
  unfold append_total.
  unfold getitem_collection at 1, iter_collection, getitem_group at 1, iter_group,
    getattr_title at 1, read, ret.
  unfold bind at 1 2 3 4 5 6. rewrite Hc. simpl. rewrite Hg. simpl. rewrite Ho.
  destruct o1 as [f1|f1]; simpl; [|reflexivity].
  unfold bind at 1. rewrite (calculateTotalElo_run h c _ (title f1) Hv).
  rewrite (scan_dict _ f _ _ Hf). reflexivity.
Qed.

(** [X6]  What [checkAll] builds cannot be given back to it: when the first
    group holds at least one record and some record of the collection, in any
    group, is a dict built by [MovieObject], [checkAll] raises
    [AttributeError] in its first pass and has changed nothing. *)
Theorem checkAll_AttributeError (h : heap) (c : loc) (o1 : object)
    (G : list object) (Rs : list (list object)) (f : fields) :
  view_collection h c = Some ((o1 :: G) :: Rs) →
  MovieObject f ∈ concat ((o1 :: G) :: Rs) →
  checkAll c h = Some (Raise AttributeError, h).
Proof.
  intros Hv Hf.
  destruct (view_first_objects h c _ _ Hv) as (g & xs & ys & Hc & Hg & Hys).
  pose proof (Forall2_length _ _ _ Hys) as Hlen. simpl in Hlen.
  rewrite checkAll_unfold.
  unfold getitem_collection, iter_collection, len_group, iter_group, read, ret.
  unfold bind at 1 2 3 4. rewrite Hc. simpl. rewrite Hg, Hlen.
  cbn [seq for_each]. unfold bind.
  rewrite (first_pass_AttributeError h c o1 G Rs f Hv Hf). reflexivity.
Qed.

Lemma checkAll_AttributeError_witness :
  view_collection store_2 2%positive
  = Some ([Attrs A1; Attrs B5] :: [[MovieObject A13]])
  ∧ MovieObject A13 ∈ concat ([Attrs A1; Attrs B5] :: [[MovieObject A13]])
  ∧ checkAll 2%positive store_2 = Some (Raise AttributeError, store_2).
Proof.
  assert (Hin : MovieObject A13
                ∈ concat ([Attrs A1; Attrs B5] :: [[MovieObject A13]])).
  { simpl. do 2 right. left. }
  split; [reflexivity|]. split; [exact Hin|].
  exact (checkAll_AttributeError store_2 2%positive (Attrs A1) [Attrs B5]
           [[MovieObject A13]] A13 eq_refl Hin).
Defined.

(** *** A failure after the first append *)

Lemma add_dict_view_other h f g rs :
  g ≠ newList →
  view_group h g = Some rs → view_group (add_dict h f) g = Some rs.
Proof.
  intros Hne. destruct (add_dict_extends h f) as (_ & Hgs & Hsub & _).
  apply view_group_frame; [apply Hgs; exact Hne|exact Hsub].
Qed.

(** After an append, every group can still be looked at, and whichever is
    [newList] now ends with the new dict. *)
Lemma add_dict_views h f xs C :
  mapM (view_group h) xs = Some C →
  ∃ C', mapM (view_group (add_dict h f)) xs = Some C'
    ∧ (newList ∈ xs → MovieObject f ∈ concat C').
Proof.
  intros Hv. apply mapM_Some in Hv.
  induction Hv as [|x rs xs C Hx _ (C' & HC' & Hin)].
  - exists []. split; [reflexivity|]. intros Habs. inversion Habs.
  - destruct (decide (x = newList)) as [->|Hne].
    + exists ((rs ++ [MovieObject f]) :: C'). split.
      * apply mapM_Some. constructor; [|apply mapM_Some; exact HC'].
        apply add_dict_view. exact Hx.
      * intros _. simpl. apply elem_of_app. left. apply elem_of_app. right. left.
    + exists (rs :: C'). split.
      * apply mapM_Some. constructor; [|apply mapM_Some; exact HC'].
        apply add_dict_view_other; assumption.
      * intros Hin'. apply elem_of_cons in Hin' as [Heq|Hin']; [congruence|].
        simpl. apply elem_of_app. right. exact (Hin Hin').
Qed.

(** [X7]  A failing call is not undone.  When every record of the
    collection, in every group, carries [title] and [elo] as attributes, one
    of the groups is the list [newList] (which then holds no dict yet), and
    the first group holds at least two records, [checkAll] completes its
    first pass, appending the total of the first record to [newList], and
    raises [AttributeError] in the second pass, where [calculateTotalElo]
    meets the dict just appended: the call ends with an exception and with
    [newList] one entry longer. *)
Theorem checkAll_fails_after_append (h : heap) (c : loc) (f1 f2 : fields)
    (G : list fields) (Rs : list (list fields)) :
  view_collection h c = Some (attrs ((f1 :: f2 :: G) :: Rs)) →
  holds_newList h c = true →
  checkAll c h
  = Some (Raise AttributeError,
          add_dict h (Fields (title f1)
                        (sum_of_matching ((f1 :: f2 :: G) :: Rs) (title f1)))).
Proof.
  intros Hv Hholds.
  set (R := (f1 :: f2 :: G) :: Rs) in *.
  set (d := Fields (title f1) (sum_of_matching R (title f1))).
  destruct (view_first_group h c _ _ Hv) as (g & xs & ys & Hc & Hg & Hys).
  assert (Hin : newList ∈ g :: xs).
  { unfold holds_newList in Hholds. rewrite Hc in Hholds.
    apply bool_decide_eq_true in Hholds. exact Hholds. }
  assert (Hviews : mapM (view_group h) (g :: xs) = Some (attrs R)).
  { unfold view_collection in Hv. rewrite Hc in Hv. exact Hv. }
  assert (Hnew : ∃ ls, groups h !! newList = Some ls).
  { apply mapM_Some in Hviews.
    apply list_elem_of_lookup in Hin as [k Hk].
    destruct (Forall2_lookup_l _ _ _ _ _ Hviews Hk) as (rs & _ & Hrs).
    unfold view_group in Hrs. destruct (groups h !! newList); [eauto|discriminate]. }
  destruct Hnew as [ls Hls].
  assert (Hadd : after_pass h ls (total_of R f1) = add_dict h d).
  { unfold add_dict. rewrite Hls. reflexivity. }
  (* the records of the first group *)
  simpl in Hys.
  inversion Hys as [|y1 o1 ys1 G1 Ho1 Hys1]; subst.
  inversion Hys1 as [|y2 o2 ys2 G2 Ho2 Hys2]; subst.
  pose proof (Forall2_length _ _ _ Hys2) as Hlen. rewrite length_map in Hlen.
  (* the second pass, in the store the first pass has left *)
  destruct (add_dict_extends h d) as (Hcs & _ & Hsub & _).
  destruct (add_dicts_group_length h [d] g _ Hg) as [ys' Hg'].
  change (add_dicts h [d]) with (add_dict h d) in Hg'.
  destruct (add_dict_views h d (g :: xs) _ Hviews) as (C' & HC' & Hdict).
  assert (Hv' : view_collection (add_dict h d) c = Some C').
  { unfold view_collection. rewrite Hcs, Hc. exact HC'. }
  assert (Hsecond : append_total c 1 tt (add_dict h d)
                    = Some (Raise AttributeError, add_dict h d)).
  { unfold append_total.
    unfold getitem_collection at 1, iter_collection, getitem_group at 1,
      iter_group, getattr_title at 1, read, ret.
    unfold bind at 1 2 3 4 5 6. rewrite Hcs, Hc. simpl. rewrite Hg'. simpl.
    rewrite (lookup_weaken _ _ _ _ Ho2 Hsub). simpl.
    unfold bind at 1. rewrite (calculateTotalElo_run _ c _ (title f2) Hv').
    rewrite (scan_dict _ d _ _ (Hdict Hin)). reflexivity. }
  rewrite checkAll_unfold.
  unfold getitem_collection, iter_collection, len_group, iter_group, read, ret.
  unfold bind at 1 2 3 4. rewrite Hc. simpl. rewrite Hg. simpl.
  cbn [seq for_each]. unfold bind at 1. unfold bind at 1.
  rewrite (append_total_run h c (f1 :: f2 :: G) Rs 0 f1 ls Hv eq_refl Hls).
  fold R. rewrite Hadd.
  unfold bind at 1. rewrite Hsecond. reflexivity.
Qed.

Lemma checkAll_fails_after_append_witness :
  view_collection store_2 1%positive = Some (attrs ([A1; B5] :: [[]]))
  ∧ holds_newList store_2 1%positive = true
  ∧ checkAll 1%positive store_2
    = Some (Raise AttributeError, add_dict store_2 (Fields "A"%string 1)).
Proof.
  split; [reflexivity|]. split; [reflexivity|].
  exact (checkAll_fails_after_append store_2 1%positive A1 B5 [] [[]]
           eq_refl eq_refl).
Defined.

(** *** The order of groups and records *)

Lemma sum_filter_Permutation (n : string) (l1 l2 : list fields) :
  l1 ≡ₚ l2 →
  foldr Z.add 0%Z (map elo (filter (λ r, title r = n) l1))
  = foldr Z.add 0%Z (map elo (filter (λ r, title r = n) l2)).
Proof.
  induction 1 as [|x l1 l2 _ IH|x y l|l1 l2 l3 _ IH1 _ IH2].
  - reflexivity.
  - rewrite !filter_cons. destruct (decide (title x = n)); simpl; rewrite IH; reflexivity.
  - rewrite !filter_cons.
    destruct (decide (title x = n)), (decide (title y = n)); simpl; lia.
  - rewrite IH1. exact IH2.
Qed.

(** [X8]  The total does not depend on the order of the groups, nor on the
    order of the records, nor on which group a record is in: two collections
    holding the same records, each as many times, get the same total for
    every name. *)
Theorem calculateTotalElo_any_order (h h' : heap) (c c' : loc)
    (R R' : list (list fields)) (n : string) :
  view_collection h c = Some (attrs R) →
  view_collection h' c' = Some (attrs R') →
  concat R ≡ₚ concat R' →
  ∃ z, calculateTotalElo c n h = Some (Return z, h)
     ∧ calculateTotalElo c' n h' = Some (Return z, h').
Proof.
  intros Hv Hv' Hperm. exists (sum_of_matching R n). split.
  - apply calculateTotalElo_attrs. exact Hv.
  - rewrite (calculateTotalElo_attrs h' c' R' n Hv').
    unfold sum_of_matching, matching.
    rewrite (sum_filter_Permutation n _ _ Hperm). reflexivity.
Qed.

Lemma calculateTotalElo_any_order_witness :
  view_collection store_4 1%positive = Some (attrs [[A10; B5]; [A3]])
  ∧ view_collection store_4 8%positive = Some (attrs [[A3]; [A10; B5]])
  ∧ concat [[A10; B5]; [A3]] ≡ₚ concat [[A3]; [A10; B5]]
  ∧ ∃ z, calculateTotalElo 1%positive "A"%string store_4 = Some (Return z, store_4)
       ∧ calculateTotalElo 8%positive "A"%string store_4 = Some (Return z, store_4).
Proof.
  assert (Hperm : concat [[A10; B5]; [A3]] ≡ₚ concat [[A3]; [A10; B5]]).
  { simpl. symmetry. apply (Permutation_cons_append [A10; B5] A3). }
  split; [reflexivity|]. split; [reflexivity|]. split; [exact Hperm|].
  exact (calculateTotalElo_any_order store_4 store_4 1%positive 8%positive
           [[A10; B5]; [A3]] [[A3]; [A10; B5]] "A"%string eq_refl eq_refl Hperm).
Defined.

(** *** The first call of a process *)







(** *** Any number of calls *)

Lemma holds_newList_same h h' c :
  collections h' = collections h → holds_newList h' c = holds_newList h c.
Proof. unfold holds_newList. intros ->. reflexivity. Qed.

Lemma call_each_run (cs : list loc) :
  ∀ (GRs : list (list fields * list (list fields))) h old,
  Forall2 (λ c GR, view_collection h c = Some (attrs (GR.1 :: GR.2))) cs GRs →
  Forall (λ c, holds_newList h c = false) cs →
  view_group h newList = Some old →
  ∃ h', call_each cs h = Some (Return tt, h')
    ∧ view_group h' newList
      = Some (old ++ concat (map (λ GR, aggregate (GR.1 :: GR.2)) GRs)).
Proof.
  unfold call_each.
  induction cs as [|c cs IH]; intros GRs h old Hviews Hnot Hold.
  - inversion Hviews; subst. exists h. simpl. rewrite app_nil_r. auto.
  - inversion Hviews as [|c0 [G Rs] cs0 GRs' Hv Hrest]; subst. simpl in Hv.
    inversion Hnot as [|c0 cs0 Hn Hnrest]; subst.
    destruct (view_collection_lookup h c _ Hv) as [xs Hc].
    destruct (checkAll_run h c xs G Rs old Hv Hc (holds_newList_false h c xs Hc Hn) Hold)
      as (h1 & Hrun & Hout & _ & Hcs & _).
    destruct (IH GRs' h1 (old ++ aggregate (G :: Rs))) as (h' & Hrun' & Hout').
    + clear IH Hviews Hnot. clear Hn. 
      induction Hrest as [|c' GR cs' GRs'' Hv' _ IHr]; constructor.
      * inversion Hnrest; subst.
        apply (checkAll_frame c h (Return newList) h1); assumption.
      * inversion Hnrest; subst. apply IHr. assumption.
    + eapply Forall_impl; [exact Hnrest|]. intros c' Hc'. simpl in Hc'.
      rewrite (holds_newList_same h h1 c' Hcs). exact Hc'.
    + exact Hout.
    + exists h'. cbn [for_each]. unfold bind at 1 2. rewrite Hrun.
      unfold ret at 1. split; [exact Hrun'|].
      rewrite Hout'. simpl. rewrite <- app_assoc. reflexivity.
Qed.

(** [X11]  Calls add up, however many there are: after [checkAll] has been
    called on each of the collections [cs] in turn, none of them holding
    [newList] and each with a first group, [newList] holds what it held
    before, then the records computed from the first collection, then those
    from the second, and so on, each collection's records in the order of
    its first group. *)
Theorem call_each_accumulates (h : heap) (cs : list loc)
    (GRs : list (list fields * list (list fields))) (old : list object) :
  mapM (view_collection h) cs = Some (map (λ GR, attrs (GR.1 :: GR.2)) GRs) →
  existsb (holds_newList h) cs = false →
  view_group h newList = Some old →
  ∃ h', call_each cs h = Some (Return tt, h')
    ∧ view_group h' newList
      = Some (old ++ concat (map (λ GR, aggregate (GR.1 :: GR.2)) GRs)).
Proof.
  intros Hviews Hnot Hold. apply call_each_run; [| |exact Hold].
  - apply mapM_Some in Hviews. apply Forall2_fmap_r in Hviews. exact Hviews.
  - clear Hviews. induction cs as [|c cs IH]; constructor.
    + simpl in Hnot. apply orb_false_iff in Hnot as [Hc _]. exact Hc.
    + apply IH. simpl in Hnot. apply orb_false_iff in Hnot as [_ Hcs]. exact Hcs.
Qed.

Lemma call_each_accumulates_witness :
  mapM (view_collection store_1) [2%positive; 1%positive; 2%positive]
  = Some (map (λ GR, attrs (GR.1 :: GR.2))
            [([A2], [[B9]]); ([A10; B5], [[A3]]); ([A2], [[B9]])])
  ∧ existsb (holds_newList store_1) [2%positive; 1%positive; 2%positive] = false
  ∧ view_group store_1 newList = Some []
  ∧ ∃ h', call_each [2%positive; 1%positive; 2%positive] store_1
          = Some (Return tt, h')
        ∧ view_group h' newList
          = Some [MovieObject A2; MovieObject A13; MovieObject B5; MovieObject A2].
Proof.
  split; [reflexivity|]. split; [reflexivity|]. split; [reflexivity|].
  exact (call_each_accumulates store_1 [2%positive; 1%positive; 2%positive]
           [([A2], [[B9]]); ([A10; B5], [[A3]]); ([A2], [[B9]])] []
           eq_refl eq_refl eq_refl).
Defined.

(** *** The references that are appended *)

Lemma add_dicts_refs fs :
  ∀ h ls,
  groups h !! newList = Some ls →
  ∃ ls', groups (add_dicts h fs) !! newList = Some (ls ++ ls')
    ∧ Forall2 (λ l f, objects h !! l = None
                 ∧ objects (add_dicts h fs) !! l = Some (MovieObject f)) ls' fs
    ∧ NoDup ls'.
Proof.
  unfold add_dicts. induction fs as [|f fs IH]; intros h ls Hls; simpl.
  - exists []. rewrite app_nil_r. split; [exact Hls|]. split; constructor.
  - set (l0 := fresh (dom (objects h))).
    assert (Hadd : add_dict h f = after_pass h ls (MovieObject f)).
    { unfold add_dict. rewrite Hls. reflexivity. }
    assert (Hl0 : objects (add_dict h f) !! l0 = Some (MovieObject f)).
    { rewrite Hadd. simpl. apply lookup_insert_eq. }
    destruct (IH (add_dict h f) (ls ++ [l0])) as (ls' & Hnew & Hrefs & Hnd).
    { rewrite Hadd. simpl. apply lookup_insert_eq. }
    destruct (add_dicts_extends (add_dict h f) fs) as (_ & _ & Hsub & _).
    unfold add_dicts in Hsub.
    exists (l0 :: ls'). split; [|split].
    + rewrite Hnew, <- app_assoc. reflexivity.
    + constructor.
      * split; [apply fresh_object|]. exact (lookup_weaken _ _ _ _ Hl0 Hsub).
      * eapply Forall2_impl; [exact Hrefs|]. intros l g [Hnone Hsome].
        split; [|exact Hsome].
        destruct (objects h !! l) as [o|] eqn:Ho; [|reflexivity].
        destruct (add_dict_extends h f) as (_ & _ & Hsub1 & _).
        rewrite (lookup_weaken _ _ _ _ Ho Hsub1) in Hnone. discriminate.
    + apply NoDup_cons. split; [|exact Hnd].
      intros Hin. apply list_elem_of_lookup in Hin as [k Hk].
      destruct (Forall2_lookup_l _ _ _ _ _ Hrefs Hk) as (g & _ & Hnone & _).
      rewrite Hl0 in Hnone. discriminate.
Qed.

(** [X12]  [checkAll] never puts a record of its caller into [newList]: every
    reference a call appends, however the call ends, is to an object that did
    not exist before the call, a dict built by [MovieObject], and no two of
    the appended references are to the same object. *)
Theorem checkAll_appends_new_objects (c : loc) (h h' : heap) (o : outcome loc)
    (ls : list loc) :
  checkAll c h = Some (o, h') →
  groups h !! newList = Some ls →
  ∃ ls', groups h' !! newList = Some (ls ++ ls')
    ∧ NoDup ls'
    ∧ Forall (λ l, objects h !! l = None
                ∧ ∃ f, objects h' !! l = Some (MovieObject f)) ls'.
Proof.
  intros Hrun Hls.
  destruct (checkAll_inv c h o h' Hrun)
    as [(_ & _ & ->)|(g & xs & ys & fs & _ & _ & Heq & _)].
  - exists []. rewrite app_nil_r. split; [exact Hls|]. split; constructor.
  - destruct (add_dicts_refs fs h ls Hls) as (ls' & Hnew & Hrefs & Hnd).
    rewrite <- Heq in Hnew, Hrefs.
    exists ls'. split; [exact Hnew|]. split; [exact Hnd|].
    clear Hnew Hnd Heq. induction Hrefs as [|l f ls' fs' [Hnone Hsome] _ IH];
      constructor; [|exact IH].
    split; [exact Hnone|]. exists f. exact Hsome.
Qed.

Lemma checkAll_appends_new_objects_witness :
  ∃ o h',
    checkAll 4%positive store_3 = Some (o, h')
    ∧ groups store_3 !! newList = Some [3%positive]
    ∧ ∃ ls', groups h' !! newList = Some ([3%positive] ++ ls')
        ∧ NoDup ls'
        ∧ Forall (λ l, objects store_3 !! l = None
                    ∧ ∃ f, objects h' !! l = Some (MovieObject f)) ls'.
Proof.
  eexists. eexists. split; [vm_compute; reflexivity|].
  split; [reflexivity|].
  eapply (checkAll_appends_new_objects 4%positive store_3);
    [vm_compute; reflexivity|reflexivity].
Defined.
